(** * lock-free-ds: the stacks of [stack.hpp] and the hazard-pointer manager

    A shallow embedding of [src/stack.hpp]:

    - [Memory]: the free store.  Every stack class declares the same
      [struct Node { T value; Node *next; }]; nodes live in a finite map
      from addresses to nodes, [nullptr] is address 0, [operator new] is an
      [Allocator] that returns an address which is not in use, and what
      [std::move] leaves in a [T] is given by [Movable].
    - [HazardPointerManager]: the slot table [slots], the thread-local
      [retired] vectors, [retire], [reclaim] and [acquire_slot_index].
    - [StackSingleThreaded]: [push] and [pop] as functions on the program
      state (free store and [head]).
    - [StackTreiber]: [push] and [pop] as a step function over program
      points, one step per access to shared memory, so that the calls of
      other threads may take place between two steps.  The flag that
      [compare_exchange_weak] may fail spuriously is an input of the step.
    - [TreiberThreads]: threads that share a [StackTreiber], run by a
      schedule of calls and steps; every access is one step, in the order
      of the schedule.
    - [StackLocked]: [push] and [pop] as steps of threads that share the
      stack and its mutex, run by a schedule of calls and steps.
    - [ListStack]: a stack as the list of its values, with which the three
      stacks are compared.

    Dereferencing a pointer that holds no live node is undefined behaviour:
    the operations return [None] there. *)

From stdpp Require Import base numbers option list vector gmap infinite finite.

Abbreviation addr := N.

(** [nullptr] *)
Definition nullptr : addr := 0%N.

(* ================================================================== *)
(** ** The free store *)

Module Memory.

(** [struct Node { T value; Node *next; }] *)
Record Node (T : Type) : Type := mkNode { value : T; next : addr }.
Arguments mkNode {T} _ _.
Arguments value {T} _.
Arguments next {T} _.

(** [operator new]: the address it returns is not null and holds no live
    node.  Nothing else is known about it. *)
Class Allocator (T : Type) : Type := {
  new_addr : gmap N (Node T) → addr;
  new_addr_nonnull : ∀ h, new_addr h ≠ nullptr;
  new_addr_fresh : ∀ h, h !! new_addr h = None
}.

(** An allocator that can be run: the least address that is neither null
    nor in use. *)
Definition least_free {T : Type} (h : gmap N (Node T)) : addr :=
  fresh ({[nullptr]} ∪ dom h).

Lemma least_free_nonnull {T : Type} (h : gmap N (Node T)) : least_free h ≠ nullptr.
Proof.
  unfold least_free. intros E.
  apply (is_fresh ({[nullptr]} ∪ dom h)). rewrite E. set_solver.
Qed.

Lemma least_free_fresh {T : Type} (h : gmap N (Node T)) : h !! least_free h = None.
Proof.
  apply not_elem_of_dom. intros E.
  apply (is_fresh ({[nullptr]} ∪ dom h)). fold (least_free h). set_solver.
Qed.

#[export] Instance least_free_allocator (T : Type) : Allocator T :=
  {| new_addr := least_free;
     new_addr_nonnull := least_free_nonnull;
     new_addr_fresh := least_free_fresh |}.

(** [std::move(x)] into a new [T]: the new object has the value that [x]
    had, and [moved_from x] is what the move constructor of [T] leaves in
    [x].  Nothing is known about it; for a type that is copied, such as
    [int], it is [x]. *)
Class Movable (T : Type) : Type := { moved_from : T → T }.

#[export] Instance copied (T : Type) : Movable T := {| moved_from := λ x, x |}.

(** What [std::move(n->value)] leaves of the node [*n]. *)
Definition moved_out {T : Type} `{!Movable T} (nd : Node T) : Node T :=
  {| value := moved_from (value nd); next := next nd |}.

(** [n->next = p] on a live node *)
Definition set_next {T : Type} (nd : Node T) (p : addr) : Node T :=
  {| value := value nd; next := p |}.

(** The nodes reached from [p] through [next] hold the values [vs], in this
    order, and the last [next] is null. *)
Fixpoint chain {T : Type} (h : gmap N (Node T)) (p : addr) (vs : list T) : Prop :=
  match vs with
  | [] => p = nullptr
  | v :: vs' =>
      p ≠ nullptr ∧ ∃ nx, h !! p = Some (mkNode v nx) ∧ chain h nx vs'
  end.

(** The same walk as a function, for at most [fuel] nodes. *)
Fixpoint contents {T : Type} (fuel : nat) (h : gmap N (Node T)) (p : addr)
  : option (list T) :=
  if decide (p = nullptr) then Some []
  else match fuel with
       | O => None
       | S fuel' =>
           nd ← h !! p;
           vs ← contents fuel' h (next nd);
           Some (value nd :: vs)
       end.

(** The free store [m] is [h] and, apart from [h], one node for every value
    of [vs]: the nodes reached from [p], which hold [vs] in this order. *)
Fixpoint owns {T : Type} (h m : gmap N (Node T)) (p : addr) (vs : list T) : Prop :=
  match vs with
  | [] => p = nullptr ∧ m = h
  | v :: vs' =>
      p ≠ nullptr ∧
      ∃ nx m', m' !! p = None ∧ m = <[p := mkNode v nx]> m' ∧ owns h m' nx vs'
  end.

End Memory.

(* ================================================================== *)
(** ** A stack as a list

    What a stack is to its user: the values it holds, the top first.  The
    stacks of [stack.hpp] are compared with it. *)

Module ListStack.

(** A call of a member and what it returned. *)
Inductive call (T : Type) : Type := Push (v : T) | Pop.
Inductive event (T : Type) : Type := Pushed (v : T) | Popped (r : option T).
Arguments Push {T} _.
Arguments Pop {T}.
Arguments Pushed {T} _.
Arguments Popped {T} _.

Definition apply {T : Type} (c : call T) (vs : list T) : event T * list T :=
  match c with
  | Push v => (Pushed v, v :: vs)
  | Pop =>
      match vs with
      | [] => (Popped None, [])
      | v :: vs' => (Popped (Some v), vs')
      end
  end.

Fixpoint model {T : Type} (cs : list (call T)) (vs : list T) : list (event T) * list T :=
  match cs with
  | [] => ([], vs)
  | c :: cs' =>
      let '(e, vs1) := apply c vs in
      let '(es, vs2) := model cs' vs1 in
      (e :: es, vs2)
  end.

Definition call_of {T : Type} (e : event T) : call T :=
  match e with Pushed v => Push v | Popped _ => Pop end.

(** The history [tr] is one of a stack that holds [vs] at first: the calls
    of [tr], made on the list in this order, return what [tr] says. *)
Definition legal {T : Type} (vs : list T) (tr : list (event T)) : Prop :=
  (model (call_of <$> tr) vs).1 = tr.

(** The values left after the history [tr]. *)
Definition after {T : Type} (vs : list T) (tr : list (event T)) : list T :=
  (model (call_of <$> tr) vs).2.

End ListStack.

(* ================================================================== *)
(** ** 4) HazardPointerManager *)

Module HazardPointerManager.

Definition MAX_HAZARD_POINTERS : nat := 128.
Definition RECLAIM_THRESHOLD : nat := 64.

(** [struct Slot { std::atomic<void*> ptr; bool used; }] *)
Record Slot : Type := mkSlot { ptr : addr; used : bool }.

(** [Slot() : ptr(nullptr), used(false)] *)
Definition Slot_init : Slot := {| ptr := nullptr; used := false |}.

(** The manager's state: the static table [slots] and, for every thread, the
    [static thread_local std::vector<void*> retired] of [retire]. *)
Record state : Type := mkState {
  slots : vec Slot MAX_HAZARD_POINTERS;
  retired : gmap nat (list addr)
}.

Definition init : state :=
  {| slots := vreplicate MAX_HAZARD_POINTERS Slot_init; retired := ∅ |}.

(** The [retired] vector of thread [t]; it is empty until [t] retires. *)
Definition retired_of (st : state) (t : nat) : list addr :=
  default [] (retired st !! t).

(** What a call does besides changing the state: the atomic loads of the
    slots and the calls of [deleter]. *)
Inductive event : Type :=
  | SlotLoad (i : nat) (hp : addr)
  | Deleter (p : addr).

(** [if (hp) hazards.insert(hp);] *)
Definition hazards_insert (hz : gset N) (s : Slot) : gset N :=
  if decide (ptr s = nullptr) then hz else {[ptr s]} ∪ hz.

(** The state in which [reclaim] returns: its local [hazards], the vector
    it was given by reference, and what it did. *)
Record reclaimed : Type := mkReclaimed {
  hazards : gset N;
  kept : list addr;
  trace : list event
}.

(** [reclaim(retired, deleter)]: the loop over the table fills [hazards];
    the function ends there, the partition is a comment. *)
Definition reclaim (sl : vec Slot MAX_HAZARD_POINTERS) (rl : list addr) : reclaimed :=
  {| hazards := foldl hazards_insert ∅ (vec_to_list sl);
     kept := rl;
     trace := imap (λ i s, SlotLoad i (ptr s)) (vec_to_list sl) |}.

(** [retire(p, deleter)] called by thread [t] *)
Definition retire (t : nat) (p : addr) (st : state) : state * list event :=
  let rl := retired_of st t ++ [p] in
  if decide (RECLAIM_THRESHOLD ≤ length rl) then
    let r := reclaim (slots st) rl in
    ({| slots := slots st; retired := <[t := kept r]> (retired st) |}, trace r)
  else
    ({| slots := slots st; retired := <[t := rl]> (retired st) |}, []).

(** [acquire_slot_index()]: the body is empty.  No slot is read or written
    and control reaches the end of a function that returns [int] without a
    value: the result is [None]. *)
Definition acquire_slot_index (t : nat) (st : state) : state * option nat :=
  (st, None).

(** [get_hazard_for_current_thread()]: the body is empty as well. *)
Definition get_hazard_for_current_thread (t : nat) (st : state)
  : state * option (fin MAX_HAZARD_POINTERS) :=
  (st, None).

(** The pointers [deleter] was called on, in order. *)
Definition deleted (tr : list event) : list addr :=
  omap (λ e, match e with Deleter p => Some p | SlotLoad _ _ => None end) tr.

(** What the comment in [reclaim] and the specification ask of the
    partition: retired pointers that are in [hazards] are kept, the others
    are given to [deleter]. *)
Definition reclaim_spec (sl : vec Slot MAX_HAZARD_POINTERS) (rl : list addr)
  : reclaimed :=
  let hz := hazards (reclaim sl rl) in
  {| hazards := hz;
     kept := filter (λ p, p ∈ hz) rl;
     trace := trace (reclaim sl rl) ++ (Deleter <$> filter (λ p, p ∉ hz) rl) |}.

(** What the comment on [acquire_slot_index] and the specification ask:
    the first slot that is not in use is marked and its index returned; a
    full table is an error of its own. *)
Inductive acquired : Type :=
  | SlotIndex (i : fin MAX_HAZARD_POINTERS)
  | CapacityExceeded.

Definition first_unused (sl : vec Slot MAX_HAZARD_POINTERS)
  : option (fin MAX_HAZARD_POINTERS) :=
  snd <$> list_find (λ i, used (sl !!! i) = false) (enum (fin MAX_HAZARD_POINTERS)).

Definition acquire_slot_index_spec (st : state) : state * acquired :=
  match first_unused (slots st) with
  | Some i =>
      ({| slots := vinsert i {| ptr := ptr (slots st !!! i); used := true |} (slots st);
          retired := retired st |}, SlotIndex i)
  | None => (st, CapacityExceeded)
  end.

(** The calls [retire(p, deleter)] of [cs], each by its thread, one after
    the other. *)
Fixpoint retires (cs : list (nat * addr)) (st : state) : state * list event :=
  match cs with
  | [] => (st, [])
  | (t, p) :: cs' =>
      let '(st1, tr1) := retire t p st in
      let '(st2, tr2) := retires cs' st1 in
      (st2, tr1 ++ tr2)
  end.

End HazardPointerManager.

(* ================================================================== *)
(** ** 1) StackSingleThreaded *)

Module StackSingleThreaded.
Import Memory.

Section Defs.
Context {T : Type} `{!Allocator T}.

(** The program state of a single-threaded stack: the free store and the
    member [Node *head]. *)
Record state : Type := mkState { mem : gmap N (Node T); head : addr }.

(** [Node *head = nullptr;] in a free store [h] *)
Definition empty (h : gmap N (Node T)) : state := {| mem := h; head := nullptr |}.

(** [push(v)] *)
Definition push (v : T) (s : state) : state :=
  let n := new_addr (mem s) in                         (* Node *n = new Node(v); *)
  let m := <[n := mkNode v nullptr]> (mem s) in
  let m := <[n := mkNode v (head s)]> m in             (* n->next = head; *)
  {| mem := m; head := n |}.                           (* head = n; *)

(** [pop()]; [Some None] is [std::nullopt] *)
Definition pop (s : state) : option (option T * state) :=
  if decide (head s = nullptr) then Some (None, s)     (* if (!head) return std::nullopt; *)
  else
    let n := head s in                                 (* Node *n = head; *)
    nd ← mem s !! n;
    Some (Some (value nd),                             (* T val = std::move(n->value); *)
          {| mem := delete n (mem s);                  (* delete n; *)
             head := next nd |}).                      (* head = head->next; *)

(** [push(v1); ...; push(vn);] *)
Definition pushes (vs : list T) (s : state) : state :=
  foldl (λ s v, push v s) s vs.

(** [n] calls of [pop()], with what each returned *)
Fixpoint pops (n : nat) (s : state) : option (list (option T) * state) :=
  match n with
  | O => Some ([], s)
  | S n' =>
      '(r, s1) ← pop s;
      '(rs, s2) ← pops n' s1;
      Some (r :: rs, s2)
  end.

(** The stack holds the values [vs], the top first. *)
Definition holds (s : state) (vs : list T) : Prop := chain (mem s) (head s) vs.

(** [~StackSingleThreaded()], for at most [fuel] turns of its loop:
    [while (head) { Node *n = head; head = head->next; delete n; }] *)
Fixpoint destroy (fuel : nat) (s : state) : option state :=
  if decide (head s = nullptr) then Some s
  else
    match fuel with
    | O => Some s
    | S fuel' =>
        nd ← mem s !! head s;
        destroy fuel' {| mem := delete (head s) (mem s); head := next nd |}
    end.

(** Calls in any order, with what each returned. *)
Fixpoint exec (cs : list (ListStack.call T)) (s : state)
  : option (list (ListStack.event T) * state) :=
  match cs with
  | [] => Some ([], s)
  | ListStack.Push v :: cs' =>
      '(es, s') ← exec cs' (push v s);
      Some (ListStack.Pushed v :: es, s')
  | ListStack.Pop :: cs' =>
      '(r, s1) ← pop s;
      '(es, s') ← exec cs' s1;
      Some (ListStack.Popped r :: es, s')
  end.

End Defs.
Arguments state : clear implicits.
End StackSingleThreaded.

(* ================================================================== *)
(** ** 2) StackLocked

    Every member begins with [std::lock_guard<std::mutex> lk(m)], so every
    access to [head] and to a node is made by the thread that owns [m]:
    the accesses of different threads are ordered by the mutex, and the
    program does what some interleaving of the steps below does. *)

Module StackLocked.
Import Memory.

Section Defs.
Context {T : Type} `{!Allocator T}.

(** The program state: the free store and the members [Node *head] and
    [std::mutex m]; [m] is the thread that owns the mutex, if any. *)
Record world : Type := mkWorld {
  mem : gmap N (Node T);
  head : addr;
  m : option nat
}.

Definition set_mem (w : world) (h : gmap N (Node T)) : world :=
  {| mem := h; head := head w; m := m w |}.

Definition set_head (w : world) (p : addr) : world :=
  {| mem := mem w; head := p; m := m w |}.

Definition set_m (w : world) (o : option nat) : world :=
  {| mem := mem w; head := head w; m := o |}.

(** The program points of [push] and [pop], with the parameter and the
    locals.  The numbers are the lines of [stack.hpp]. *)
Inductive pc : Type :=
  | PushLock (v : T)                 (* 51: std::lock_guard<std::mutex> lk(m); *)
  | PushNew (v : T)                  (* 52: Node *n = new Node(v); *)
  | PushNext (v : T) (n : addr)      (* 53: n->next = head; *)
  | PushHead (v : T) (n : addr)      (* 54: head = n; *)
  | PushUnlock (v : T)               (* 55: } the guard unlocks m *)
  | PopLock                          (* 57: std::lock_guard<std::mutex> lk(m); *)
  | PopTest                          (* 58: if (!head) *)
  | PopTake                          (* 62: Node *n = head; *)
  | PopNext (n : addr)               (* 63: head = head->next; *)
  | PopMove (n : addr)               (* 64: T val = std::move(n->value); *)
  | PopDelete (n : addr) (val : T)   (* 65: delete n; *)
  | PopUnlock (r : option T).        (* 59: return std::nullopt;  66: return val;
                                        the guard unlocks m *)

(** The program points at which the thread owns the mutex. *)
Definition in_cs (c : pc) : bool :=
  match c with PushLock _ | PopLock => false | _ => true end.

(** What a step of thread [t] comes to. *)
Inductive outcome : Type :=
  | Next (c : pc) (w : world)                  (* the call goes on at [c] *)
  | Blocked                                    (* another thread owns the mutex *)
  | Return (e : ListStack.event T) (w : world) (* the call returns *)
  | Undefined.                                 (* undefined behaviour *)

(** [m.lock()]: a thread that owns [m] must not lock it again. *)
Definition lock (t : nat) (c : pc) (w : world) : outcome :=
  match m w with
  | None => Next c (set_m w (Some t))
  | Some t' => if decide (t' = t) then Undefined else Blocked
  end.

(** [m.unlock()] by the guard, then the return: the thread must own [m]. *)
Definition unlock (t : nat) (e : ListStack.event T) (w : world) : outcome :=
  if decide (m w = Some t) then Return e (set_m w None) else Undefined.

Definition step (t : nat) (c : pc) (w : world) : outcome :=
  match c with
  | PushLock v => lock t (PushNew v) w
  | PushNew v =>
      let n := new_addr (mem w) in
      Next (PushNext v n) (set_mem w (<[n := mkNode v nullptr]> (mem w)))
  | PushNext v n =>
      match mem w !! n with
      | Some nd => Next (PushHead v n) (set_mem w (<[n := set_next nd (head w)]> (mem w)))
      | None => Undefined
      end
  | PushHead v n => Next (PushUnlock v) (set_head w n)
  | PushUnlock v => unlock t (ListStack.Pushed v) w
  | PopLock => lock t PopTest w
  | PopTest =>
      if decide (head w = nullptr) then Next (PopUnlock None) w else Next PopTake w
  | PopTake => Next (PopNext (head w)) w
  | PopNext n =>
      match mem w !! head w with
      | Some nd => Next (PopMove n) (set_head w (next nd))
      | None => Undefined
      end
  | PopMove n =>
      match mem w !! n with
      | Some nd => Next (PopDelete n (value nd)) w
      | None => Undefined
      end
  | PopDelete n val =>
      match mem w !! n with
      | Some _ => Next (PopUnlock (Some val)) (set_mem w (delete n (mem w)))
      | None => Undefined
      end
  | PopUnlock r => unlock t (ListStack.Popped r) w
  end.

Definition entry (c : ListStack.call T) : pc :=
  match c with ListStack.Push v => PushLock v | ListStack.Pop => PopLock end.

(** The threads and the stack they share: [pool] has the program point of
    every thread that is in a call. *)
Record config : Type := mkConfig { pool : gmap nat pc; shared : world }.

(** What happens next: a thread that is in no call makes one, or a thread
    that is in a call takes a step. *)
Inductive action : Type :=
  | Call (t : nat) (c : ListStack.call T)
  | Run (t : nat).

(** One action, with the call that returns by it, if one does.  An action
    that cannot take place (a call by a thread that is in one, a step of a
    thread that is in none or waits for the mutex) leaves all as it is. *)
Definition act (a : action) (cf : config) : option (config * list (ListStack.event T)) :=
  match a with
  | Call t c =>
      match pool cf !! t with
      | None => Some ({| pool := <[t := entry c]> (pool cf); shared := shared cf |}, [])
      | Some _ => Some (cf, [])
      end
  | Run t =>
      match pool cf !! t with
      | None => Some (cf, [])
      | Some c =>
          match step t c (shared cf) with
          | Next c' w' => Some ({| pool := <[t := c']> (pool cf); shared := w' |}, [])
          | Blocked => Some (cf, [])
          | Return e w' => Some ({| pool := delete t (pool cf); shared := w' |}, [e])
          | Undefined => None
          end
      end
  end.

(** The actions of a schedule, with the calls that returned, in the order
    in which they returned. *)
Fixpoint exec (sched : list action) (cf : config)
  : option (config * list (ListStack.event T)) :=
  match sched with
  | [] => Some (cf, [])
  | a :: sched' =>
      '(cf1, tr1) ← act a cf;
      '(cf2, tr2) ← exec sched' cf1;
      Some (cf2, tr1 ++ tr2)
  end.

(** The stack holds the values [vs], the top first. *)
Definition holds (w : world) (vs : list T) : Prop := chain (mem w) (head w) vs.

(** A stack that was never pushed to, in a free store [h], and no thread
    in a call. *)
Definition initial (h : gmap N (Node T)) : config :=
  {| pool := ∅; shared := {| mem := h; head := nullptr; m := None |} |}.

(** Thread [t] can take a step: it is in a call and does not wait. *)
Definition can_run (cf : config) (t : nat) : Prop :=
  ∃ c, pool cf !! t = Some c ∧ step t c (shared cf) ≠ Blocked.

(** What the free store and [head] are like while the owner of the mutex
    is at [c], in a call made on a stack that held [vs]. *)
Definition cs_inv (c : pc) (w : world) (vs : list T) : Prop :=
  match c with
  | PushLock _ | PopLock => False
  | PushNew v => holds w vs
  | PushNext v n =>
      ∃ m0, m0 !! n = None ∧ n ≠ nullptr
            ∧ mem w = <[n := mkNode v nullptr]> m0 ∧ chain m0 (head w) vs
  | PushHead v n => chain (mem w) n (v :: vs)
  | PushUnlock v => holds w (v :: vs)
  | PopTest => holds w vs
  | PopTake => holds w vs ∧ head w ≠ nullptr
  | PopNext n => holds w vs ∧ head w ≠ nullptr ∧ n = head w
  | PopMove n =>
      ∃ v vs', vs = v :: vs' ∧ n ≠ nullptr
               ∧ mem w !! n = Some (mkNode v (head w)) ∧ chain (mem w) (head w) vs'
  | PopDelete n val =>
      ∃ vs', vs = val :: vs' ∧ n ≠ nullptr
             ∧ mem w !! n = Some (mkNode val (head w)) ∧ chain (mem w) (head w) vs'
  | PopUnlock None => vs = [] ∧ holds w []
  | PopUnlock (Some v) => ∃ vs', vs = v :: vs' ∧ holds w vs'
  end.

(** The invariant of the threads and the stack, [vs] being the values
    that the calls that have returned left: a thread past its lock owns
    the mutex; when nobody owns it the stack holds [vs]; when a thread
    owns it, the thread is in the middle of a call on a stack that held
    [vs]. *)
Definition inv (vs : list T) (cf : config) : Prop :=
  (∀ t c, pool cf !! t = Some c → in_cs c = true → m (shared cf) = Some t)
  ∧ match m (shared cf) with
    | None => holds (shared cf) vs
    | Some t => ∃ c, pool cf !! t = Some c ∧ in_cs c = true ∧ cs_inv c (shared cf) vs
    end.

End Defs.
Arguments world : clear implicits.
Arguments pc : clear implicits.
Arguments config : clear implicits.
Arguments action : clear implicits.
Arguments outcome : clear implicits.
End StackLocked.

(* ================================================================== *)
(** ** 3) StackTreiber *)

Module StackTreiber.
Import Memory.

Section Defs.
Context {T : Type} `{!Allocator T} `{!Movable T}.

(** The program state: the free store, the member
    [std::atomic<Node*> head] and the state of the hazard-pointer manager,
    whose members are static. *)
Record world : Type := mkWorld {
  mem : gmap N (Node T);
  head : addr;
  hazard : HazardPointerManager.state
}.

Definition set_mem (w : world) (m : gmap N (Node T)) : world :=
  {| mem := m; head := head w; hazard := hazard w |}.

Definition set_head (w : world) (p : addr) : world :=
  {| mem := mem w; head := p; hazard := hazard w |}.

(** The program points of [push] and [pop], with the locals that are live
    there.  The numbers are the lines of [stack.hpp]. *)
Inductive pc : Type :=
  | PushNew (v : T)              (* 90: Node *n = new Node(v); *)
  | PushLoad (n : addr)          (* 91: n->next = head.load(relaxed); *)
  | PushCas (n : addr)           (* 93: while (!head.compare_exchange_weak(n->next, n)) *)
  | PushRet                      (* 98 *)
  | PopLoad                      (* 100: Node *old = head.load(relaxed); *)
  | PopWhile (old : addr)        (* 101: while (old) { 102: Node *next = old->next; *)
  | PopCas (old next : addr)     (* 103: if (head.compare_exchange_weak(old, next)) *)
  | PopMove (old : addr)         (* 110: T val = std::move(old->value); *)
  | PopRet (r : option T).       (* 112: return val;  117: return std::nullopt; *)

Definition returned (c : pc) : bool :=
  match c with PushRet | PopRet _ => true | _ => false end.

Definition at_cas (c : pc) : bool :=
  match c with PushCas _ | PopCas _ _ => true | _ => false end.

Definition in_push (c : pc) : bool :=
  match c with PushNew _ | PushLoad _ | PushCas _ | PushRet => true | _ => false end.

Definition in_pop (c : pc) : bool := negb (in_push c).

(** [compare_exchange_weak(expected, desired)] on an atomic that holds
    [cur] succeeds when [cur] is [expected] and the hardware does not fail
    it.  When it fails, [expected] is set to [cur]. *)
Definition cas_succeeds (spurious : bool) (cur expected : addr) : bool :=
  negb spurious && bool_decide (cur = expected).

(** One step of a thread at [c]. *)
Definition step (spurious : bool) (c : pc) (w : world) : option (pc * world) :=
  match c with
  | PushNew v =>
      let n := new_addr (mem w) in
      Some (PushLoad n, set_mem w (<[n := mkNode v nullptr]> (mem w)))
  | PushLoad n =>
      nd ← mem w !! n;
      Some (PushCas n, set_mem w (<[n := set_next nd (head w)]> (mem w)))
  | PushCas n =>
      nd ← mem w !! n;
      if cas_succeeds spurious (head w) (next nd)
      then Some (PushRet, set_head w n)
      else Some (PushCas n, set_mem w (<[n := set_next nd (head w)]> (mem w)))
  | PushRet => Some (PushRet, w)
  | PopLoad => Some (PopWhile (head w), w)
  | PopWhile old =>
      if decide (old = nullptr) then Some (PopRet None, w)
      else nd ← mem w !! old; Some (PopCas old (next nd), w)
  | PopCas old nx =>
      if cas_succeeds spurious (head w) old
      then Some (PopMove old, set_head w nx)
      else Some (PopWhile (head w), w)
  | PopMove old =>
      nd ← mem w !! old;
      Some (PopRet (Some (value nd)), set_mem w (<[old := moved_out nd]> (mem w)))
  | PopRet r => Some (PopRet r, w)
  end.

(** A thread that runs alone, for at most [fuel] steps.  [sp] tells which
    of its compare-exchanges fail spuriously, in order; those after the
    last entry do not. *)
Fixpoint run (fuel : nat) (sp : list bool) (c : pc) (w : world) : option (pc * world) :=
  match fuel with
  | O => Some (c, w)
  | S fuel' =>
      if returned c then Some (c, w)
      else
        '(c', w') ← step (hd false sp) c w;
        run fuel' (if at_cas c then tl sp else sp) c' w'
  end.

(** The calls of a single thread. *)
Inductive op : Type := Push (v : T) | Pop.

Definition entry (o : op) : pc :=
  match o with Push v => PushNew v | Pop => PopLoad end.

(** The calls [ops], one after the other, each with its spurious failures
    and at most [fuel] steps; a call that has not returned by then stops
    the run. *)
Fixpoint calls (fuel : nat) (ops : list (op * list bool)) (w : world)
  : option (list pc * world) :=
  match ops with
  | [] => Some ([], w)
  | (o, sp) :: ops' =>
      '(c, w1) ← run fuel sp (entry o) w;
      if returned c then
        '(cs, w2) ← calls fuel ops' w1;
        Some (c :: cs, w2)
      else None
  end.

(** [push(v1); ...; push(vn);], each value with the spurious failures of
    its call. *)
Definition push_calls (l : list (T * list bool)) : list (op * list bool) :=
  (λ x, (Push x.1, x.2)) <$> l.

(** One [pop()] for every entry of [sps]. *)
Definition pop_calls (sps : list (list bool)) : list (op * list bool) :=
  (λ sp, (Pop, sp)) <$> sps.

(** The stack holds the values [vs], the top first. *)
Definition holds (w : world) (vs : list T) : Prop := chain (mem w) (head w) vs.

(** The world in which a call of [push(v)] that ran alone returns. *)
Definition pushed (v : T) (w : world) : world :=
  {| mem := <[new_addr (mem w) := mkNode v (head w)]> (mem w);
     head := new_addr (mem w);
     hazard := hazard w |}.

(** The world in which a call of [pop()] that ran alone returns, when the
    top node held [v] and had [nx] below it: the node is unlinked, moved
    from, and still there. *)
Definition popped (v : T) (nx : addr) (w : world) : world :=
  {| mem := <[head w := mkNode (moved_from v) nx]> (mem w);
     head := nx;
     hazard := hazard w |}.

(** A stack that was never pushed to, in a free store [h]. *)
Definition empty (h : gmap N (Node T)) (hp : HazardPointerManager.state) : world :=
  {| mem := h; head := nullptr; hazard := hp |}.

(** The protocol that the specification gives for [pop], read on the
    steps of a call.  Protect: when the candidate [old] is dereferenced, a
    hazard slot holds it. *)
Definition protects_before_dereference : Prop :=
  ∀ spurious old w c' w',
    old ≠ nullptr → step spurious (PopWhile old) w = Some (c', w') →
    ∃ i, HazardPointerManager.ptr (HazardPointerManager.slots (hazard w) !!! i) = old.

(** Retire: when a call that ran alone returns a value, the node it
    unlinked is in the [retired] vector of a thread. *)
Definition retires_unlinked_node : Prop :=
  ∀ fuel sp w v w',
    run fuel sp PopLoad w = Some (PopRet (Some v), w') →
    ∃ t, head w ∈ HazardPointerManager.retired_of (hazard w') t.

(** A call as the list sees it, and the program point at which a call
    with a given result has returned. *)
Definition call_of (o : op) : ListStack.call T :=
  match o with Push v => ListStack.Push v | Pop => ListStack.Pop end.

Definition returns (e : ListStack.event T) : pc :=
  match e with ListStack.Pushed _ => PushRet | ListStack.Popped r => PopRet r end.

(** The values that the calls [ops] push. *)
Definition pushed_values (ops : list (op * list bool)) : list T :=
  omap (λ x, match x.1 with Push v => Some v | Pop => None end) ops.

End Defs.
Arguments world : clear implicits.
Arguments pc : clear implicits.
Arguments op : clear implicits.
End StackTreiber.

(* ================================================================== *)
(** ** 3) StackTreiber, used by threads

    The threads share the stack; each is in no call or at a program point
    of [StackTreiber].  A schedule says which thread makes a call or takes
    a step next, and whether the compare-exchange of that step fails
    spuriously.  Every step is one access to the atomic [head] or to a
    node, in the order of the schedule. *)

Module TreiberThreads.
Import Memory StackTreiber.

Section Defs.
Context {T : Type} `{!Allocator T} `{!Movable T}.

Record config : Type := mkConfig { pool : gmap nat (pc T); shared : world T }.

Inductive action : Type :=
  | Call (t : nat) (o : op T)
  | Run (t : nat) (spurious : bool).

(** The record of a run: a thread calls, its call returns at a program
    point.  This is what the program does, and all that a run records.  A
    linearization of a record has one more mark for every call, its
    effect, which names the point at which the call acts on the stack as a
    whole. *)
Inductive mark : Type :=
  | Invoke (t : nat) (c : ListStack.call T)
  | Effect (t : nat) (e : ListStack.event T)
  | Respond (t : nat) (c : pc T).

(** One action.  A call by a thread that is in one, and a step of a thread
    that is in none, leave all as it is; a thread whose call has returned
    is in no call. *)
Definition act (a : action) (cf : config) : option (config * list mark) :=
  match a with
  | Call t o =>
      match pool cf !! t with
      | None =>
          Some ({| pool := <[t := entry o]> (pool cf); shared := shared cf |},
                [Invoke t (call_of o)])
      | Some _ => Some (cf, [])
      end
  | Run t spurious =>
      match pool cf !! t with
      | None => Some (cf, [])
      | Some c =>
          '(c', w') ← step spurious c (shared cf);
          if returned c'
          then Some ({| pool := delete t (pool cf); shared := w' |}, [Respond t c'])
          else Some ({| pool := <[t := c']> (pool cf); shared := w' |}, [])
      end
  end.

Fixpoint exec (sched : list action) (cf : config) : option (config * list mark) :=
  match sched with
  | [] => Some (cf, [])
  | a :: sched' =>
      '(cf1, tr1) ← act a cf;
      '(cf2, tr2) ← exec sched' cf1;
      Some (cf2, tr1 ++ tr2)
  end.




(** The calls, the effects and the returns of a record or of a
    linearization, each in order. *)
Definition calls_made (tr : list mark) : list (ListStack.call T) :=
  omap (λ m, match m with Invoke _ c => Some c | _ => None end) tr.


Definition responses (tr : list mark) : list (pc T) :=
  omap (λ m, match m with Respond _ c => Some c | _ => None end) tr.


(** Where a thread is in its call: it has made the call [c], or the call
    has taken effect as [e] and has not returned. *)
Inductive status : Type :=
  | Called (c : ListStack.call T)
  | Effected (e : ListStack.event T).




(** The nodes reached from [p]: their addresses and values, in order. *)
Fixpoint lseg (h : gmap N (Node T)) (p : addr) (l : list (addr * T)) : Prop :=
  match l with
  | [] => p = nullptr
  | x :: l' =>
      p = x.1 ∧ x.1 ≠ nullptr
      ∧ ∃ nx, h !! x.1 = Some (mkNode x.2 nx) ∧ lseg h nx l'
  end.

(** The node that only the thread at [c] writes: the node of a push that
    is not linked yet, the node that a pop has unlinked. *)
Definition owned (c : pc T) : option addr :=
  match c with
  | PushLoad n | PushCas n => Some n
  | PopMove old => Some old
  | _ => None
  end.

(** What holds of a thread at [c]: [pub] are the nodes that were linked
    at some time, [ads] the nodes that are linked, [s] is where the thread
    is in its call. *)
Definition tinv (pub : gset N) (ads : list addr) (h : gmap N (Node T))
    (s : option status) (c : pc T) : Prop :=
  match c with
  | PushNew v => s = Some (Called (ListStack.Push v))
  | PushLoad n | PushCas n =>
      n ≠ nullptr ∧ (n ∉ pub)
      ∧ ∃ v nx, s = Some (Called (ListStack.Push v)) ∧ h !! n = Some (mkNode v nx)
  | PopLoad => s = Some (Called ListStack.Pop)
  | PopWhile old =>
      if decide (old = nullptr) then s = Some (Effected (ListStack.Popped None))
      else s = Some (Called ListStack.Pop) ∧ old ∈ pub
  | PopCas old nx =>
      s = Some (Called ListStack.Pop) ∧ old ∈ pub
      ∧ ∃ nd, h !! old = Some nd ∧ next nd = nx
  | PopMove old =>
      old ∈ pub ∧ (old ∉ ads)
      ∧ ∃ v nx, s = Some (Effected (ListStack.Popped (Some v)))
                ∧ h !! old = Some (mkNode v nx)
  | PushRet | PopRet _ => False
  end.

(** The invariant of the threads and the stack: the stack holds [vs], the
    values that the effects so far have left; the linked nodes were
    published and the published nodes are live; every thread is where
    [st] says and as [tinv] says; no node is owned by two threads. *)
Definition inv (st : gmap nat status) (vs : list T) (cf : config) : Prop :=
  ∃ (l : list (addr * T)) (pub : gset N),
    lseg (mem (shared cf)) (head (shared cf)) l
    ∧ l.*2 = vs
    ∧ (∀ a, a ∈ l.*1 → a ∈ pub)
    ∧ (∀ a, a ∈ pub → a ≠ nullptr ∧ is_Some (mem (shared cf) !! a))
    ∧ (∀ t, pool cf !! t = None → st !! t = None)
    ∧ (∀ t c, pool cf !! t = Some c → tinv pub l.*1 (mem (shared cf)) (st !! t) c)
    ∧ (∀ t1 t2 c1 c2 a, t1 ≠ t2 →
         pool cf !! t1 = Some c1 → pool cf !! t2 = Some c2 →
         owned c1 = Some a → owned c2 = Some a → False).

End Defs.
Arguments config : clear implicits.
Arguments action : clear implicits.
Arguments mark : clear implicits.
Arguments status : clear implicits.
End TreiberThreads.

(* ================================================================== *)
(** ** Program states to run the operations on *)

Module Examples.
Import Memory HazardPointerManager.

(** A lock-free stack of one node: 7 at address 1.  No thread has a slot,
    nothing is retired. *)
Definition one_node : StackTreiber.world nat :=
  {| StackTreiber.mem := {[1%N := mkNode 7 nullptr]};
     StackTreiber.head := 1%N;
     StackTreiber.hazard := init |}.

(** What the move constructor of [std::vector] leaves behind: the empty
    vector. *)
Definition emptied : Movable (list nat) := {| moved_from := λ _, [] |}.

(** A lock-free stack of vectors, of one node: [7; 8] at address 1. *)
Definition one_vector : StackTreiber.world (list nat) :=
  {| StackTreiber.mem := {[1%N := mkNode [7; 8] nullptr]};
     StackTreiber.head := 1%N;
     StackTreiber.hazard := init |}.

(** The table in which slot 3 protects address 42. *)
Definition slot3_holds_42 : vec Slot MAX_HAZARD_POINTERS :=
  vinsert 3%fin {| ptr := 42%N; used := true |} (slots init).

(** Thread 0 has retired the [n] addresses 1000, 1001, ... while slot 3
    protects address 42. *)
Definition backlog (n : nat) : state :=
  {| slots := slot3_holds_42;
     retired := {[0 := (λ i, N.of_nat (1000 + i)) <$> seq 0 n]} |}.

(** A single-threaded stack that holds 2 above 1, in a free store with a
    node of somebody else at address 9. *)
Definition two_nodes : StackSingleThreaded.state nat :=
  {| StackSingleThreaded.mem :=
       {[1%N := mkNode 1 nullptr; 2%N := mkNode 2 1%N; 9%N := mkNode 0 9%N]};
     StackSingleThreaded.head := 2%N |}.

(** A locked stack of one node: 7 at address 1.  The mutex is free and no
    thread is in a call. *)
Definition locked_one_node : StackLocked.config nat :=
  {| StackLocked.pool := ∅;
     StackLocked.shared :=
       {| StackLocked.mem := {[1%N := mkNode 7 nullptr]};
          StackLocked.head := 1%N;
          StackLocked.m := None |} |}.

(** Thread 0 calls [push(1)] and thread 1 calls [pop()].  Thread 1 takes
    the mutex first; thread 0 waits, twice, until the pop has returned.
    Then thread 1 pops again. *)
Definition two_threads : list (StackLocked.action nat) :=
  [StackLocked.Call 0 (ListStack.Push 1); StackLocked.Call 1 ListStack.Pop;
   StackLocked.Run 1; StackLocked.Run 0; StackLocked.Run 1; StackLocked.Run 1;
   StackLocked.Run 0; StackLocked.Run 1; StackLocked.Run 1; StackLocked.Run 1;
   StackLocked.Run 1;
   StackLocked.Run 0; StackLocked.Run 0; StackLocked.Run 0; StackLocked.Run 0;
   StackLocked.Run 0;
   StackLocked.Call 1 ListStack.Pop;
   StackLocked.Run 1; StackLocked.Run 1; StackLocked.Run 1; StackLocked.Run 1;
   StackLocked.Run 1; StackLocked.Run 1; StackLocked.Run 1].



End Examples.

(* ================================================================== *)
(** * Facts *)

(** ** The free store *)

Module MemoryFacts.
Import Memory.

Section Chain.
Context {T : Type}.
Implicit Types (h : gmap N (Node T)) (p n : addr) (vs : list T).

Lemma chain_nil h p : chain h p [] ↔ p = nullptr.
Proof. reflexivity. Qed.

Lemma chain_null h vs : chain h nullptr vs → vs = [].
Proof. destruct vs as [|v vs]; [done|]. intros [Hn _]. done. Qed.

(** A pointer heads at most one sequence of values. *)
Lemma chain_functional h vs : ∀ p ws, chain h p vs → chain h p ws → vs = ws.
Proof.
  induction vs as [|v vs IH]; intros p ws Hv Hw.
  - simpl in Hv. subst p. symmetry. by eapply chain_null.
  - destruct Hv as (Hp & nx & Hnx & Hv).
    destruct ws as [|w ws]; [done|].
    destruct Hw as (_ & nx' & Hnx' & Hw).
    rewrite Hnx in Hnx'. injection Hnx' as -> ->.
    f_equal. by eapply IH.
Qed.

(** Every node of a chain is live, so a new node leaves the chain alone. *)
Lemma chain_insert_fresh h n x vs :
  h !! n = None → ∀ p, chain h p vs → chain (<[n := x]> h) p vs.
Proof.
  intros Hn. induction vs as [|v vs IH]; intros p; [done|].
  intros (Hp & nx & Hnx & Hv). split; [done|]. exists nx. split; [|by apply IH].
  rewrite lookup_insert_ne; [done|]. intros ->. congruence.
Qed.

(** Writing the node a chain does not reach leaves the chain alone. *)
Lemma chain_insert_outside h n x vs :
  ∀ p, (∀ us, chain h n us → length vs < length us) →
       chain h p vs → chain (<[n := x]> h) p vs.
Proof.
  induction vs as [|v vs IH]; intros p Hlen; [done|].
  intros (Hp & nx & Hnx & Hv).
  assert (p ≠ n) as Hne.
  { intros ->. specialize (Hlen (v :: vs)). simpl in Hlen.
    assert (S (length vs) < S (length vs)); [|lia].
    apply Hlen. split; [done|]. by exists nx. }
  split; [done|]. exists nx. split.
  - by rewrite lookup_insert_ne.
  - apply IH; [|done]. intros us Hus. specialize (Hlen us Hus). simpl in Hlen. lia.
Qed.

(** Freeing a node the chain does not reach leaves the chain alone. *)
Lemma chain_delete_outside h n vs :
  ∀ p, (∀ us, chain h n us → length vs < length us) →
       chain h p vs → chain (delete n h) p vs.
Proof.
  induction vs as [|v vs IH]; intros p Hlen; [done|].
  intros (Hp & nx & Hnx & Hv).
  assert (p ≠ n) as Hne.
  { intros ->. specialize (Hlen (v :: vs)). simpl in Hlen.
    assert (S (length vs) < S (length vs)); [|lia].
    apply Hlen. split; [done|]. by exists nx. }
  split; [done|]. exists nx. split.
  - by rewrite lookup_delete_ne.
  - apply IH; [|done]. intros us Hus. specialize (Hlen us Hus). simpl in Hlen. lia.
Qed.

(** The top node of a chain is not among the nodes below it. *)
Lemma chain_delete_top h p v nx vs :
  p ≠ nullptr → h !! p = Some (mkNode v nx) → chain h nx vs →
  chain (delete p h) nx vs.
Proof.
  intros Hp Hnx Hv. apply chain_delete_outside; [|done].
  intros us Hus.
  assert (v :: vs = us) as <-; [|simpl; lia].
  eapply chain_functional; [|exact Hus]. split; [done|]. by exists nx.
Qed.

(** The walk as a function finds the values of a chain. *)
Lemma chain_contents h vs : ∀ p, chain h p vs → contents (length vs) h p = Some vs.
Proof.
  induction vs as [|v vs IH]; intros p.
  - intros ->. done.
  - intros (Hp & nx & Hnx & Hv). simpl.
    destruct (decide (p = nullptr)); [done|].
    rewrite Hnx. simpl. by rewrite (IH _ Hv).
Qed.

Lemma contents_chain h fuel : ∀ p vs, contents fuel h p = Some vs → chain h p vs.
Proof.
  induction fuel as [|fuel IH]; intros p vs; simpl.
  - destruct (decide (p = nullptr)); [|done]. by intros [= <-].
  - destruct (decide (p = nullptr)); [by intros [= <-]|].
    destruct (h !! p) as [[v nx]|] eqn:Hp; [|done]. simpl.
    destruct (contents fuel h nx) as [ws|] eqn:Hc; [|done]. simpl.
    intros [= <-]. split; [done|]. exists nx. split; [done|]. by apply IH.
Qed.

End Chain.

End MemoryFacts.

(** ** StackSingleThreaded *)

Module StackSingleThreadedFacts.
Import Memory MemoryFacts StackSingleThreaded.

Section Facts.
Context {T : Type} `{!Allocator T}.
Implicit Types (s : state T) (v : T) (vs : list T).

Lemma state_eta s : {| mem := mem s; head := head s |} = s.
Proof. by destruct s. Qed.

Lemma head_push v s : head (push v s) = new_addr (mem s).
Proof. reflexivity. Qed.

Lemma mem_push v s :
  mem (push v s) = <[new_addr (mem s) := mkNode v (head s)]> (mem s).
Proof. unfold push. simpl. by rewrite insert_insert_eq. Qed.

(** [pop] undoes [push]: the node that [push] allocated is the one that
    [pop] frees. *)
Lemma pop_push v s : pop (push v s) = Some (Some v, s).
Proof.
  unfold pop. rewrite head_push, mem_push.
  destruct (decide (new_addr (mem s) = nullptr)) as [E|_].
  { by destruct (new_addr_nonnull (mem s)). }
  rewrite lookup_insert_eq. simpl.
  rewrite delete_insert_id by apply new_addr_fresh.
  by rewrite state_eta.
Qed.

Lemma pop_nullptr s : head s = nullptr → pop s = Some (None, s).
Proof. intros E. unfold pop. by rewrite decide_True. Qed.

Lemma push_holds v s vs : holds s vs → holds (push v s) (v :: vs).
Proof.
  unfold holds. rewrite head_push, mem_push. intros Hc.
  split; [apply new_addr_nonnull|]. exists (head s).
  split; [by rewrite lookup_insert_eq|].
  apply chain_insert_fresh; [apply new_addr_fresh | done].
Qed.

Lemma pop_holds v s vs :
  holds s (v :: vs) → ∃ s', pop s = Some (Some v, s') ∧ holds s' vs.
Proof.
  intros (Hp & nx & Hnx & Hc). unfold pop.
  rewrite decide_False by done. rewrite Hnx. simpl.
  eexists. split; [done|]. unfold holds. simpl.
  by eapply chain_delete_top.
Qed.

Lemma pushes_snoc vs v s : pushes (vs ++ [v]) s = push v (pushes vs s).
Proof. unfold pushes. by rewrite foldl_app. Qed.

Lemma pushes_holds ws : ∀ s vs, holds s vs → holds (pushes ws s) (rev ws ++ vs).
Proof.
  induction ws as [|w ws IH] using rev_ind; intros s vs Hs; [done|].
  rewrite pushes_snoc, rev_unit. simpl. apply push_holds. by apply IH.
Qed.

(** As many pops as there are values return them from the top down and
    leave the stack empty. *)
Lemma pops_holds vs : ∀ s,
  holds s vs → ∃ s', pops (length vs) s = Some (Some <$> vs, s') ∧ head s' = nullptr.
Proof.
  induction vs as [|v vs IH]; intros s Hs.
  - exists s. split; [done|]. exact Hs.
  - destruct (pop_holds _ _ _ Hs) as (s1 & Hpop & Hs1).
    destruct (IH _ Hs1) as (s2 & Hpops & Hnull).
    exists s2. split; [|done]. simpl. rewrite Hpop. simpl. by rewrite Hpops.
Qed.

(** [n] pushes and [n] pops give the values back in reverse and restore the
    state, free store included. *)
Lemma pops_pushes vs : ∀ s, pops (length vs) (pushes vs s) = Some (Some <$> rev vs, s).
Proof.
  induction vs as [|v vs IH] using rev_ind; intros s; [done|].
  rewrite pushes_snoc, length_app, Nat.add_comm, rev_unit. simpl.
  rewrite pop_push. simpl. by rewrite IH.
Qed.

Lemma pops_nullptr n s : head s = nullptr → pops n s = Some (replicate n None, s).
Proof.
  intros E. induction n as [|n IH]; [done|].
  simpl. rewrite pop_nullptr by done. simpl. by rewrite IH.
Qed.

End Facts.
End StackSingleThreadedFacts.

(** ** StackTreiber *)

Module StackTreiberFacts.
Import Memory MemoryFacts StackTreiber.

Section Facts.
Context {T : Type} `{!Allocator T} `{!Movable T}.
Implicit Types (w : world T) (c : pc T) (v : T) (vs : list T) (sp : list bool).

Lemma set_mem_id w : set_mem w (mem w) = w.
Proof. by destruct w. Qed.

Lemma set_head_id w : set_head w (head w) = w.
Proof. by destruct w. Qed.

Lemma cas_succeeds_same cur : cas_succeeds false cur cur = true.
Proof. unfold cas_succeeds. by rewrite bool_decide_eq_true_2. Qed.

Lemma cas_succeeds_spurious cur expected : cas_succeeds true cur expected = false.
Proof. reflexivity. Qed.

(** *** What a step leaves alone *)

Ltac step_cases c H :=
  destruct c; simpl in H;
  repeat match type of H with
    | context [decide ?P] => destruct (decide P)
    | context [cas_succeeds ?b ?x ?y] => destruct (cas_succeeds b x y)
    | context [@lookup _ _ _ _ ?k ?m] => destruct (@lookup _ _ _ _ k m); simpl in H
    end;
  simplify_eq.

Lemma step_hazard spurious c w c' w' :
  step spurious c w = Some (c', w') → hazard w' = hazard w.
Proof. intros H. step_cases c H; done. Qed.

Lemma step_in_push spurious c w c' w' :
  in_push c = true → step spurious c w = Some (c', w') → in_push c' = true.
Proof. intros Hc H. step_cases c H; done. Qed.

Lemma step_in_pop spurious c w c' w' :
  in_pop c = true → step spurious c w = Some (c', w') → in_pop c' = true.
Proof. intros Hc H. step_cases c H; done. Qed.

(** [pop] writes the free store in one place: at line 110, the value of
    the node it has unlinked. *)
Lemma step_pop_mem spurious c w c' w' :
  in_pop c = true → step spurious c w = Some (c', w') →
  mem w' = mem w
  ∨ ∃ old nd, c = PopMove old ∧ mem w !! old = Some nd
              ∧ mem w' = <[old := moved_out nd]> (mem w).
Proof.
  intros Hc H. destruct c as [| | | | |old|old nx|old|r]; try done; simpl in H.
  - left. by simplify_eq.
  - left. destruct (decide (old = nullptr)); [by simplify_eq|].
    destruct (mem w !! old); simpl in H; by simplify_eq.
  - left. destruct (cas_succeeds spurious (head w) old); by simplify_eq.
  - right. destruct (mem w !! old) as [nd|] eqn:E; simpl in H; [|done].
    simplify_eq. by exists old, nd.
  - left. by simplify_eq.
Qed.

(** [pop] allocates no node and frees none, and writes no [next]. *)
Lemma step_pop_nodes spurious c w c' w' :
  in_pop c = true → step spurious c w = Some (c', w') →
  dom (mem w') = dom (mem w)
  ∧ ∀ a nd, mem w !! a = Some nd →
            ∃ nd', mem w' !! a = Some nd' ∧ next nd' = next nd.
Proof.
  intros Hc H.
  destruct (step_pop_mem _ _ _ _ _ Hc H) as [->|(old & nd & _ & Hold & ->)].
  - split; [done|]. intros a nd Ha. by exists nd.
  - split; [apply dom_insert_lookup_L; by rewrite Hold|].
    intros a nd' Ha. destruct (decide (a = old)) as [->|Hne].
    + rewrite lookup_insert_eq. exists (moved_out nd). split; [done|]. simpl. congruence.
    + rewrite lookup_insert_ne by done. by exists nd'.
Qed.

(** [pop] writes [head] in one place: the compare-exchange that succeeds. *)
Lemma step_pop_head spurious c w c' w' :
  in_pop c = true → step spurious c w = Some (c', w') →
  head w' = head w ∨
  ∃ nx, c = PopCas (head w) nx ∧ spurious = false ∧ c' = PopMove (head w) ∧ head w' = nx.
Proof.
  intros Hc H. destruct c as [| | | | |old|old nx|old|r]; try done; simpl in H.
  - left. by simplify_eq.
  - left. destruct (decide (old = nullptr)); [by simplify_eq|].
    destruct (mem w !! old); simpl in H; by simplify_eq.
  - unfold cas_succeeds in H. destruct spurious; simpl in H; [left; by simplify_eq|].
    case_bool_decide; simplify_eq; [|by left].
    right. by exists nx.
  - left. destruct (mem w !! old); simpl in H; by simplify_eq.
  - left. by simplify_eq.
Qed.

Lemma run_returned fuel sp c w : returned c = true → run fuel sp c w = Some (c, w).
Proof. intros Hc. destruct fuel; simpl; [done|]. by rewrite Hc. Qed.

Lemma run_hazard fuel : ∀ sp c w c' w',
  run fuel sp c w = Some (c', w') → hazard w' = hazard w.
Proof.
  induction fuel as [|fuel IH]; intros sp c w c' w'; simpl.
  - by intros [= <- <-].
  - destruct (returned c); [by intros [= <- <-]|].
    destruct (step (hd false sp) c w) as [[c1 w1]|] eqn:Hs; [|done]. simpl.
    intros Hr. rewrite (IH _ _ _ _ _ Hr). by eapply step_hazard.
Qed.

Lemma run_pop_dom fuel : ∀ sp c w c' w',
  in_pop c = true → run fuel sp c w = Some (c', w') → dom (mem w') = dom (mem w).
Proof.
  induction fuel as [|fuel IH]; intros sp c w c' w' Hc; simpl.
  - by intros [= <- <-].
  - destruct (returned c); [by intros [= <- <-]|].
    destruct (step (hd false sp) c w) as [[c1 w1]|] eqn:Hs; [|done]. simpl.
    intros Hr. rewrite (IH _ _ _ _ _ (step_in_pop _ _ _ _ _ Hc Hs) Hr).
    by eapply step_pop_nodes.
Qed.

(** *** A call that runs alone *)

Lemma run_S fuel sp c w :
  run (S fuel) sp c w =
    if returned c then Some (c, w)
    else '(c', w') ← step (hd false sp) c w;
         run fuel (if at_cas c then tl sp else sp) c' w'.
Proof. reflexivity. Qed.

Lemma run_PushNew fuel sp v w :
  run (S fuel) sp (PushNew v) w =
    run fuel sp (PushLoad (new_addr (mem w)))
      (set_mem w (<[new_addr (mem w) := mkNode v nullptr]> (mem w))).
Proof. reflexivity. Qed.

Lemma run_PushLoad fuel sp n nd w :
  mem w !! n = Some nd →
  run (S fuel) sp (PushLoad n) w =
    run fuel sp (PushCas n) (set_mem w (<[n := set_next nd (head w)]> (mem w))).
Proof. intros Hn. rewrite run_S. simpl. by rewrite Hn. Qed.

Lemma run_PushCas_success fuel sp n nd w :
  mem w !! n = Some nd → next nd = head w → hd false sp = false →
  run (S fuel) sp (PushCas n) w = Some (PushRet, set_head w n).
Proof.
  intros Hn Hnx Hsp. rewrite run_S. simpl. rewrite Hn, Hsp. simpl.
  rewrite Hnx, cas_succeeds_same. by apply run_returned.
Qed.

Lemma run_PushCas_spurious fuel sp n nd w :
  mem w !! n = Some nd →
  run (S fuel) (true :: sp) (PushCas n) w =
    run fuel sp (PushCas n) (set_mem w (<[n := set_next nd (head w)]> (mem w))).
Proof. intros Hn. rewrite run_S. simpl. by rewrite Hn. Qed.

Lemma run_PopLoad fuel sp w :
  run (S fuel) sp PopLoad w = run fuel sp (PopWhile (head w)) w.
Proof. reflexivity. Qed.

Lemma run_PopWhile fuel sp old nd w :
  old ≠ nullptr → mem w !! old = Some nd →
  run (S fuel) sp (PopWhile old) w = run fuel sp (PopCas old (next nd)) w.
Proof.
  intros Hp Hn. rewrite run_S. simpl. rewrite decide_False by done. by rewrite Hn.
Qed.

Lemma run_PopWhile_nullptr fuel sp w :
  run (S fuel) sp (PopWhile nullptr) w = Some (PopRet None, w).
Proof. rewrite run_S. simpl. by apply run_returned. Qed.

Lemma run_PopCas_success fuel sp nx w :
  hd false sp = false →
  run (S fuel) sp (PopCas (head w) nx) w = run fuel (tl sp) (PopMove (head w)) (set_head w nx).
Proof. intros Hsp. rewrite run_S. simpl. by rewrite Hsp, cas_succeeds_same. Qed.

Lemma run_PopCas_spurious fuel sp old nx w :
  run (S fuel) (true :: sp) (PopCas old nx) w = run fuel sp (PopWhile (head w)) w.
Proof. reflexivity. Qed.

Lemma run_PopMove fuel sp old nd w :
  mem w !! old = Some nd →
  run (S fuel) sp (PopMove old) w
    = Some (PopRet (Some (value nd)), set_mem w (<[old := moved_out nd]> (mem w))).
Proof. intros Hn. rewrite run_S. simpl. rewrite Hn. simpl. by apply run_returned. Qed.

Lemma run_push_cas sp : ∀ fuel w n v,
  mem w !! n = Some (mkNode v (head w)) → length sp < fuel →
  run fuel sp (PushCas n) w = Some (PushRet, set_head w n).
Proof.
  induction sp as [|b sp IH]; intros fuel w n v Hn Hf;
    (destruct fuel as [|fuel]; [simpl in Hf; lia|]).
  - by erewrite run_PushCas_success.
  - destruct b; [|by erewrite run_PushCas_success].
    erewrite run_PushCas_spurious by done.
    unfold set_next. simpl. rewrite insert_id by done. rewrite set_mem_id.
    apply (IH _ _ _ v); [done|]. simpl in Hf. lia.
Qed.

Lemma run_push sp fuel w v :
  length sp + 2 < fuel → run fuel sp (PushNew v) w = Some (PushRet, pushed v w).
Proof.
  intros Hf. destruct fuel as [|[|fuel]]; [lia..|].
  rewrite run_PushNew.
  erewrite run_PushLoad by (simpl; apply lookup_insert_eq).
  erewrite (run_push_cas _ _ _ _ v); [|simpl..|lia].
  - unfold pushed, set_head, set_mem, set_next. simpl. by rewrite insert_insert_eq.
  - unfold set_next. simpl. by rewrite lookup_insert_eq.
Qed.

Lemma run_pop_while sp : ∀ fuel w v nx,
  head w ≠ nullptr → mem w !! head w = Some (mkNode v nx) →
  2 * length sp + 2 < fuel →
  run fuel sp (PopWhile (head w)) w = Some (PopRet (Some v), popped v nx w).
Proof.
  assert (∀ fuel sp' w v nx,
    mem w !! head w = Some (mkNode v nx) → hd false sp' = false →
    run (S (S fuel)) sp' (PopCas (head w) nx) w
      = Some (PopRet (Some v), popped v nx w)) as Hwin.
  { intros fuel sp' w v nx Hn Hsp. rewrite run_PopCas_success by done.
    by erewrite run_PopMove by (simpl; exact Hn). }
  induction sp as [|b sp IH]; intros fuel w v nx Hp Hn Hf;
    (destruct fuel as [|[|[|fuel]]]; [simpl in Hf; lia..|]);
    erewrite run_PopWhile by done; simpl next.
  - by apply Hwin.
  - destruct b; [|by apply Hwin].
    rewrite run_PopCas_spurious. apply IH; [done..|]. simpl in Hf. lia.
Qed.

Lemma run_pop sp fuel w v nx :
  head w ≠ nullptr → mem w !! head w = Some (mkNode v nx) →
  2 * length sp + 3 < fuel →
  run fuel sp PopLoad w = Some (PopRet (Some v), popped v nx w).
Proof.
  intros Hp Hn Hf. destruct fuel as [|fuel]; [lia|].
  rewrite run_PopLoad. apply run_pop_while; [done..|lia].
Qed.

(** The node that a pop has unlinked is out of the reach of [head]: what
    the move leaves in it does not show in the stack. *)
Lemma popped_holds v nx w vs :
  head w ≠ nullptr → mem w !! head w = Some (mkNode v nx) →
  chain (mem w) nx vs → holds (popped v nx w) vs.
Proof.
  intros Hp Hn Hch. unfold holds, popped. simpl.
  apply chain_insert_outside; [|done].
  intros us Hus.
  assert (v :: vs = us) as <-; [|simpl; lia].
  eapply chain_functional; [|exact Hus]. split; [done|]. by exists nx.
Qed.

(** On an empty stack the load of [head] finds null, the loop is not
    entered and no compare-exchange takes place. *)
Lemma run_pop_nullptr sp fuel w :
  head w = nullptr → run (S (S fuel)) sp PopLoad w = Some (PopRet None, w).
Proof.
  intros E. by rewrite run_PopLoad, E, run_PopWhile_nullptr.
Qed.

(** *** The calls of one thread *)

Lemma pushed_holds v w vs : holds w vs → holds (pushed v w) (v :: vs).
Proof.
  unfold holds, pushed. simpl. intros Hc.
  split; [apply new_addr_nonnull|]. exists (head w).
  split; [by rewrite lookup_insert_eq|].
  apply chain_insert_fresh; [apply new_addr_fresh | done].
Qed.

Lemma calls_app fuel ops1 : ∀ ops2 w,
  calls fuel (ops1 ++ ops2) w =
    '(cs1, w1) ← calls fuel ops1 w;
    '(cs2, w2) ← calls fuel ops2 w1;
    Some (cs1 ++ cs2, w2).
Proof.
  induction ops1 as [|[o sp] ops1 IH]; intros ops2 w; simpl.
  - by destruct (calls fuel ops2 w) as [[cs2 w2]|].
  - destruct (run fuel sp (entry o) w) as [[c w1]|]; [|done]. simpl.
    destruct (returned c); [|done]. rewrite IH.
    destruct (calls fuel ops1 w1) as [[cs1 w1']|]; [|done]. simpl.
    by destruct (calls fuel ops2 w1') as [[cs2 w2]|].
Qed.

Lemma calls_push_calls fuel l : ∀ w vs,
  Forall (λ x, length x.2 + 2 < fuel) l → holds w vs →
  ∃ w', calls fuel (push_calls l) w = Some (replicate (length l) PushRet, w')
        ∧ holds w' (rev l.*1 ++ vs) ∧ hazard w' = hazard w.
Proof.
  induction l as [|[v sp] l IH]; intros w vs Hl Hw.
  - exists w. by repeat split.
  - apply Forall_cons in Hl as [Hsp Hl]. simpl in Hsp.
    destruct (IH (pushed v w) (v :: vs) Hl (pushed_holds v w vs Hw))
      as (w' & Hcalls & Hw' & Hhz).
    exists w'. simpl. rewrite run_push by done. simpl. rewrite Hcalls. simpl.
    split; [done|]. split; [|done]. by rewrite <- app_assoc.
Qed.

Lemma calls_pop_calls fuel vs : ∀ sps w,
  length sps = length vs → Forall (λ sp, 2 * length sp + 3 < fuel) sps →
  holds w vs →
  ∃ w', calls fuel (pop_calls sps) w = Some (PopRet ∘ Some <$> vs, w')
        ∧ head w' = nullptr ∧ hazard w' = hazard w.
Proof.
  induction vs as [|v vs IH]; intros sps w Hlen Hsps Hw.
  - destruct sps; [|done]. exists w. by repeat split.
  - destruct sps as [|sp sps]; [done|]. simpl in Hlen.
    apply Forall_cons in Hsps as [Hsp Hsps].
    destruct Hw as (Hp & nx & Hnx & Hc).
    destruct (IH sps (popped v nx w)) as (w' & Hcalls & Hhd & Hhz);
      [lia|done|by apply popped_holds|].
    exists w'. simpl. rewrite (run_pop sp fuel w v nx) by done. simpl.
    by rewrite Hcalls.
Qed.

Lemma calls_pop_nullptr fuel n sp w :
  head w = nullptr →
  calls (S (S fuel)) (replicate n (Pop, sp)) w = Some (replicate n (PopRet None), w).
Proof.
  intros E. induction n as [|n IH]; [done|].
  cbn [replicate calls entry]. rewrite run_pop_nullptr by done. simpl.
  by rewrite IH.
Qed.

End Facts.
End StackTreiberFacts.

(** ** HazardPointerManager *)

Module HazardPointerManagerFacts.
Import HazardPointerManager.

Implicit Types (sl : vec Slot MAX_HAZARD_POINTERS) (rl : list addr) (st : state).

Lemma elem_of_foldl_hazards_insert (l : list Slot) : ∀ (acc : gset N) (p : addr),
  p ∈ foldl hazards_insert acc l ↔
  p ∈ acc ∨ (p ≠ nullptr ∧ ∃ s, s ∈ l ∧ ptr s = p).
Proof.
  induction l as [|s l IH]; intros acc p; simpl.
  - split; [by left|]. intros [H|(_ & s & Hs & _)]; [done|]. by apply elem_of_nil in Hs.
  - rewrite IH. unfold hazards_insert. split.
    + intros [Hacc|(Hp & s' & Hs' & E)].
      * destruct (decide (ptr s = nullptr)); [by left|].
        apply elem_of_union in Hacc as [Hs%elem_of_singleton|Hacc]; [|by left].
        right. split; [by subst|]. exists s. split; [left|done].
      * right. split; [done|]. exists s'. split; [by right|done].
    + intros [Hacc|(Hp & s' & Hs' & E)].
      * left. destruct (decide (ptr s = nullptr)); [done|].
        apply elem_of_union. by right.
      * apply elem_of_cons in Hs' as [->|Hs'].
        -- left. rewrite decide_False by by rewrite E.
           apply elem_of_union. left. by apply elem_of_singleton.
        -- right. split; [done|]. by exists s'.
Qed.

(** The snapshot holds the pointers of the slots that are not null. *)
Lemma elem_of_hazards sl rl p :
  p ∈ hazards (reclaim sl rl) ↔ p ≠ nullptr ∧ ∃ i, ptr (sl !!! i) = p.
Proof.
  unfold reclaim. simpl. rewrite elem_of_foldl_hazards_insert. split.
  - intros [H|(Hp & s & Hs & E)]; [set_solver|].
    split; [done|]. apply elem_of_vlookup in Hs as [i Hi]. exists i. by rewrite Hi.
  - intros (Hp & i & E). right. split; [done|].
    exists (sl !!! i). split; [|done]. apply elem_of_vlookup. by exists i.
Qed.

(** [reclaim] loads every slot once and does nothing else. *)
Lemma trace_reclaim_loads sl rl e :
  e ∈ trace (reclaim sl rl) → ∃ i hp, e = SlotLoad i hp.
Proof.
  unfold reclaim. simpl. intros (i & s & -> & _)%elem_of_lookup_imap. by eexists _, _.
Qed.

Lemma length_trace_reclaim sl rl :
  length (trace (reclaim sl rl)) = MAX_HAZARD_POINTERS.
Proof. unfold reclaim. simpl. by rewrite length_imap, length_vec_to_list. Qed.

Lemma elem_of_deleted tr p : p ∈ deleted tr ↔ Deleter p ∈ tr.
Proof.
  unfold deleted. rewrite list_elem_of_omap. split.
  - intros (e & He & Hp). destruct e; by simplify_eq.
  - intros He. by exists (Deleter p).
Qed.

Lemma deleted_reclaim sl rl : deleted (trace (reclaim sl rl)) = [].
Proof.
  destruct (deleted (trace (reclaim sl rl))) as [|p l] eqn:E; [done|].
  assert (p ∈ deleted (trace (reclaim sl rl))) as Hp by (rewrite E; left).
  apply elem_of_deleted, trace_reclaim_loads in Hp as (i & hp & ?). done.
Qed.

Lemma kept_reclaim sl rl : kept (reclaim sl rl) = rl.
Proof. reflexivity. Qed.

Lemma retired_of_insert st t t' rl sl :
  retired_of {| slots := sl; retired := <[t := rl]> (retired st) |} t' =
    if decide (t = t') then rl else retired_of st t'.
Proof.
  unfold retired_of. simpl. rewrite lookup_insert. by destruct (decide (t = t')).
Qed.

Lemma retire_state t p st :
  (retire t p st).1 =
    {| slots := slots st; retired := <[t := retired_of st t ++ [p]]> (retired st) |}.
Proof. unfold retire. by destruct (decide _). Qed.

Lemma retire_trace_at_threshold t p st :
  RECLAIM_THRESHOLD ≤ length (retired_of st t ++ [p]) →
  (retire t p st).2 = trace (reclaim (slots st) (retired_of st t ++ [p])).
Proof. intros H. unfold retire. by rewrite decide_True. Qed.

Lemma retire_trace_below_threshold t p st :
  length (retired_of st t ++ [p]) < RECLAIM_THRESHOLD → (retire t p st).2 = [].
Proof. intros H. unfold retire. rewrite decide_False; [done|lia]. Qed.

Lemma deleted_retire t p st : deleted (retire t p st).2 = [].
Proof.
  unfold retire. destruct (decide _); cbn [snd]; [apply deleted_reclaim|done].
Qed.

Lemma slots_init_lookup (i : fin MAX_HAZARD_POINTERS) : slots init !!! i = Slot_init.
Proof. unfold init. cbn [slots]. apply vlookup_replicate. Qed.

Lemma retired_of_init t : retired_of init t = [].
Proof. reflexivity. Qed.

End HazardPointerManagerFacts.

(* ================================================================== *)
(** * The properties of the specification *)

(** ** The single-threaded stack *)

Section SingleThreadedClaims.
Import Memory MemoryFacts StackSingleThreaded StackSingleThreadedFacts.

(** C10.  [push(v)] followed by [pop()] on a [StackSingleThreaded] in any
    state [s] returns [v] and leaves the state [s]: the stack holds the
    sequence of values it held before, and the free store is the same. *)
Theorem push_then_pop_roundtrip (T : Type) (A : Allocator T) (s : state T) (v : T) :
  pop (push v s) = Some (Some v, s)
  ∧ (∀ vs, holds s vs → holds (push v s) (v :: vs))
  ∧ (∀ vs s', holds s vs → pop (push v s) = Some (Some v, s') → holds s' vs).
Proof.
  split; [apply pop_push|]. split; [intros vs; apply push_holds|].
  intros vs s' Hs. rewrite pop_push. by intros [= <-].
Qed.

(** The round trip on a stack that holds 2 above 1. *)
Lemma push_then_pop_roundtrip_witness :
  holds Examples.two_nodes [2; 1]
  ∧ pop (push 5 Examples.two_nodes) = Some (Some 5, Examples.two_nodes)
  ∧ holds (push 5 Examples.two_nodes) [5; 2; 1].
Proof.
  assert (holds Examples.two_nodes [2; 1]) as H.
  { split; [done|]. exists 1%N. split; [done|].
    split; [done|]. exists nullptr. by split. }
  destruct (push_then_pop_roundtrip nat _ Examples.two_nodes 5) as (Hpop & Hpush & _).
  split; [exact H|]. split; [exact Hpop|]. exact (Hpush _ H).
Defined.

End SingleThreadedClaims.

(** ** The hazard-pointer manager *)

Section ManagerClaims.
Import HazardPointerManager HazardPointerManagerFacts.

(** C2.  [reclaim] takes the snapshot and stops.  Thread 0 has retired 63
    pointers and retires a 64th while slot 3 protects address 42: [retire]
    calls [reclaim] on the 64 pointers, the snapshot is {42}, none of the
    64 is in it, yet no deleter is called and the 64 stay in the list.
    The partition of the specification calls the deleter on all of them
    and empties the list.  On every input [reclaim] keeps the list as it
    is and frees nothing. *)
Theorem reclaim_partition_missing :
  let sl := slots (Examples.backlog 63) in
  let rl := retired_of (Examples.backlog 63) 0 ++ [9%N] in
  (length rl = 64
   ∧ (retire 0 9%N (Examples.backlog 63)).2 = trace (reclaim sl rl)
   ∧ hazards (reclaim sl rl) = {[42%N]}
   ∧ Forall (λ p, p ∉ hazards (reclaim sl rl)) rl
   ∧ deleted (trace (reclaim sl rl)) = []
   ∧ kept (reclaim sl rl) = rl
   ∧ deleted (trace (reclaim_spec sl rl)) = rl
   ∧ kept (reclaim_spec sl rl) = [])
  ∧ (∀ sl rl, deleted (trace (reclaim sl rl)) = [] ∧ kept (reclaim sl rl) = rl).
Proof.
  intros sl rl. split.
  - split; [reflexivity|]. split; [by vm_compute|]. split; [by vm_compute|].
    split; [apply (bool_decide_unpack _); by vm_compute|].
    split; [apply deleted_reclaim|]. split; [reflexivity|]. split; by vm_compute.
  - intros sl' rl'. split; [apply deleted_reclaim|done].
Qed.

(** C3.  A scan frees no protected node: a pointer that a hazard slot holds
    when [reclaim] takes its snapshot is in the snapshot and is not passed
    to the deleter, by [reclaim] or by the [retire] that calls it; the
    deleter is called only on pointers outside the snapshot. *)
Theorem reclaim_spares_protected
    (sl : vec Slot MAX_HAZARD_POINTERS) (rl : list addr) (i : fin MAX_HAZARD_POINTERS) :
  ptr (sl !!! i) ≠ nullptr →
  ptr (sl !!! i) ∈ hazards (reclaim sl rl)
  ∧ (ptr (sl !!! i) ∉ deleted (trace (reclaim sl rl)))
  ∧ Forall (λ p, p ∉ hazards (reclaim sl rl)) (deleted (trace (reclaim sl rl)))
  ∧ (∀ t p retired, ptr (sl !!! i) ∉ deleted (retire t p (mkState sl retired)).2).
Proof.
  intros Hp. split; [|split; [|split]].
  - apply elem_of_hazards. split; [done|]. by exists i.
  - rewrite deleted_reclaim. apply not_elem_of_nil.
  - rewrite deleted_reclaim. constructor.
  - intros t p rt. rewrite deleted_retire. apply not_elem_of_nil.
Qed.

(** Slot 3 protects 42 while thread 0 scans a list that holds 42. *)
Lemma reclaim_spares_protected_witness :
  ptr (Examples.slot3_holds_42 !!! 3%fin) = 42%N
  ∧ 42%N ∈ hazards (reclaim Examples.slot3_holds_42 [42%N; 7%N])
  ∧ 42%N ∉ deleted (trace (reclaim Examples.slot3_holds_42 [42%N; 7%N])).
Proof.
  split; [reflexivity|].
  destruct (reclaim_spares_protected Examples.slot3_holds_42 [42%N; 7%N] 3%fin)
    as (Hin & Hout & _); [done|].
  split; [exact Hin | exact Hout].
Defined.

(** C4.  [acquire_slot_index] has no body: on the initial table, where
    every slot is free, the first call of a thread marks no slot and gives
    back no index, while the specification has it mark slot 0 and return
    0.  No table, full or not, makes it report that the capacity is
    exceeded. *)
Theorem acquire_slot_index_does_nothing :
  (acquire_slot_index 0 init = (init, None)
   ∧ (∀ i, used (slots (acquire_slot_index 0 init).1 !!! i) = false)
   ∧ (acquire_slot_index_spec init).2 = SlotIndex 0%fin
   ∧ used (slots (acquire_slot_index_spec init).1 !!! 0%fin) = true)
  ∧ (∀ t st, acquire_slot_index t st = (st, None)).
Proof.
  split; [|done]. split; [done|]. split; [|split; by vm_compute].
  intros i. cbn [acquire_slot_index fst]. by rewrite slots_init_lookup.
Qed.

(** C5.  [retire(p)] by thread [t] appends [p] to the retired list of [t]
    and leaves the lists of the other threads and the slots as they are.
    It runs a scan, on the list of [t] with [p] in it, when this list has
    reached 64 entries; below 64 it does nothing more. *)
Theorem retire_appends_and_scans_at_threshold (t : nat) (p : addr) (st : state) :
  RECLAIM_THRESHOLD = 64
  ∧ retired_of (retire t p st).1 t = retired_of st t ++ [p]
  ∧ (∀ t', t' ≠ t → retired_of (retire t p st).1 t' = retired_of st t')
  ∧ slots (retire t p st).1 = slots st
  ∧ (64 ≤ length (retired_of st t ++ [p]) →
       (retire t p st).2 = trace (reclaim (slots st) (retired_of st t ++ [p]))
       ∧ length (retire t p st).2 = MAX_HAZARD_POINTERS)
  ∧ (length (retired_of st t ++ [p]) < 64 → (retire t p st).2 = [])
  ∧ ((retire t p st).2 ≠ [] ↔ 64 ≤ length (retired_of st t ++ [p])).
Proof.
  split; [done|]. rewrite retire_state.
  split; [by rewrite retired_of_insert, decide_True|].
  split; [intros t' Ht'; by rewrite retired_of_insert, decide_False|].
  split; [done|].
  assert (64 ≤ length (retired_of st t ++ [p]) →
          (retire t p st).2 = trace (reclaim (slots st) (retired_of st t ++ [p]))
          ∧ length (retire t p st).2 = MAX_HAZARD_POINTERS) as Hscan.
  { intros H. rewrite retire_trace_at_threshold by done.
    split; [done|apply length_trace_reclaim]. }
  split; [exact Hscan|].
  split; [apply retire_trace_below_threshold|].
  split.
  - intros Hne. destruct (decide (64 ≤ length (retired_of st t ++ [p]))); [done|].
    destruct Hne. apply retire_trace_below_threshold. unfold RECLAIM_THRESHOLD. lia.
  - intros H. destruct (Hscan H) as [_ Hlen]. intros E. by rewrite E in Hlen.
Qed.

(** The 64th pointer that thread 0 retires starts a scan of the 128 slots;
    the 63rd does not. *)
Lemma retire_appends_and_scans_at_threshold_witness :
  length (retired_of (Examples.backlog 63) 0) = 63
  ∧ length (retired_of (retire 0 9%N (Examples.backlog 63)).1 0) = 64
  ∧ length (retire 0 9%N (Examples.backlog 63)).2 = 128
  ∧ (retire 0 9%N (Examples.backlog 62)).2 = [].
Proof.
  split; [reflexivity|].
  destruct (retire_appends_and_scans_at_threshold 0 9%N (Examples.backlog 63))
    as (_ & Happ & _ & _ & Hscan & _).
  destruct (retire_appends_and_scans_at_threshold 0 9%N (Examples.backlog 62))
    as (_ & _ & _ & _ & _ & Hbelow & _).
  split; [by rewrite Happ|].
  split; [apply Hscan; vm_compute; lia | apply Hbelow; vm_compute; lia].
Defined.

End ManagerClaims.

(** ** The lock-free stack *)

Section TreiberClaims.
Import Memory MemoryFacts HazardPointerManager HazardPointerManagerFacts.
Import StackTreiber StackTreiberFacts.

(** C1, as the specification has it, fails.  On the stack of one node (7 at
    address 1) a [pop] that runs alone returns 7 and unlinks the node.
    When it reads [old->next], every hazard slot is null; when it returns,
    the [retired] vector of every thread is empty.  So [pop] neither
    protects the node before it dereferences it nor retires it. *)
Lemma pop_skips_hazard_protocol :
  run 4 [] PopLoad Examples.one_node
    = Some (PopRet (Some 7), set_head Examples.one_node nullptr)
  ∧ step false (PopWhile 1%N) Examples.one_node
    = Some (PopCas 1%N nullptr, Examples.one_node)
  ∧ (∀ i, ptr (slots (hazard Examples.one_node) !!! i) = nullptr)
  ∧ (∀ t, retired_of (hazard (set_head Examples.one_node nullptr)) t = [])
  ∧ ¬ protects_before_dereference (T := nat)
  ∧ ¬ retires_unlinked_node (T := nat).
Proof.
  assert (∀ i, ptr (slots (hazard Examples.one_node) !!! i) = nullptr) as Hslots.
  { intros i. simpl. by rewrite slots_init_lookup. }
  split; [by vm_compute|]. split; [by vm_compute|]. split; [exact Hslots|].
  split; [done|]. split.
  - intros H.
    destruct (H false 1%N Examples.one_node (PopCas 1%N nullptr) Examples.one_node)
      as [i Hi]; [done|by vm_compute|].
    by rewrite Hslots in Hi.
  - intros H.
    destruct (H 4 [] Examples.one_node 7 (set_head Examples.one_node nullptr))
      as [t Ht]; [by vm_compute|].
    simpl in Ht. rewrite retired_of_init in Ht. by apply elem_of_nil in Ht.
Qed.

(** C1, amended.  [pop] loads [head] and returns no value when it is null.
    Otherwise it reads [old->next], whatever [head] and the hazard slots
    hold by then, and tries to swing [head] from [old] to it; when the
    compare-exchange fails it goes on with the current [head]; when it
    succeeds, alone or among other threads, [head] is [next] and the call
    returns the value it then moves out of the node it unlinked.  No step
    of [pop] changes a hazard slot or a retired list, none allocates or
    frees a node, and none writes a [next]: the one write is the move at
    line 110, which leaves the unlinked node allocated and moved from. *)
Theorem pop_unlinks_without_hazard_pointers
    (T : Type) (A : Allocator T) (M : Movable T) :
  (∀ spurious c (w : world T) c' w',
     in_pop c = true → step spurious c w = Some (c', w') →
     in_pop c' = true ∧ hazard w' = hazard w
     ∧ dom (mem w') = dom (mem w)
     ∧ (∀ a nd, mem w !! a = Some nd →
                ∃ nd', mem w' !! a = Some nd' ∧ next nd' = next nd)
     ∧ (mem w' = mem w
        ∨ ∃ old nd, c = PopMove old ∧ mem w !! old = Some nd
                    ∧ mem w' = <[old := moved_out nd]> (mem w)))
  ∧ (∀ spurious old nd (w : world T),
       old ≠ nullptr → mem w !! old = Some nd →
       step spurious (PopWhile old) w = Some (PopCas old (next nd), w))
  ∧ (∀ spurious old nx (w : world T),
       cas_succeeds spurious (head w) old = false →
       step spurious (PopCas old nx) w = Some (PopWhile (head w), w))
  ∧ (∀ spurious old nx (w : world T),
       cas_succeeds spurious (head w) old = true →
       step spurious (PopCas old nx) w = Some (PopMove old, set_head w nx))
  ∧ (∀ spurious old nd (w : world T),
       mem w !! old = Some nd →
       step spurious (PopMove old) w
         = Some (PopRet (Some (value nd)),
                 set_mem w (<[old := moved_out nd]> (mem w))))
  ∧ (∀ sp fuel (w : world T),
       head w = nullptr → 1 < fuel → run fuel sp PopLoad w = Some (PopRet None, w))
  ∧ (∀ sp fuel (w : world T) v nx,
       head w ≠ nullptr → mem w !! head w = Some (mkNode v nx) →
       2 * length sp + 3 < fuel →
       run fuel sp PopLoad w
         = Some (PopRet (Some v),
                 {| mem := <[head w := mkNode (moved_from v) nx]> (mem w);
                    head := nx;
                    hazard := hazard w |})).
Proof.
  split; [|split; [|split; [|split; [|split; [|split]]]]].
  - intros spurious c w c' w' Hc Hs. split; [by eapply step_in_pop|].
    split; [by eapply step_hazard|].
    destruct (step_pop_nodes _ _ _ _ _ Hc Hs) as [Hdom Hnext].
    split; [done|]. split; [done|]. by eapply step_pop_mem.
  - intros spurious old nd w Hp Hn. simpl. rewrite decide_False by done.
    by rewrite Hn.
  - intros spurious old nx w Hcas. simpl. by rewrite Hcas.
  - intros spurious old nx w Hcas. simpl. by rewrite Hcas.
  - intros spurious old nd w Hn. simpl. by rewrite Hn.
  - intros sp fuel w E Hf. destruct fuel as [|[|fuel]]; [lia..|].
    by apply run_pop_nullptr.
  - intros sp fuel w v nx Hp Hn Hf. by rewrite (run_pop sp fuel w v nx).
Qed.

(** The amended protocol on the stack of one vector, with a
    compare-exchange that fails once before it succeeds: the pop returns
    the vector and leaves its node, emptied, in the free store. *)
Lemma pop_unlinks_without_hazard_pointers_witness :
  @run (list nat) _ Examples.emptied 6 [true] PopLoad Examples.one_vector
    = Some (PopRet (Some [7; 8]),
            {| mem := {[1%N := mkNode [] nullptr]};
               head := nullptr;
               hazard := init |}).
Proof.
  destruct (pop_unlinks_without_hazard_pointers (list nat) _ Examples.emptied)
    as (_ & _ & _ & _ & _ & _ & Hrun).
  rewrite (Hrun [true] 6 Examples.one_vector [7; 8] nullptr);
    [by vm_compute|done|reflexivity|simpl; lia].
Defined.

(** C9.  [push] stays away from the hazard pointers: no step of a call of
    [push] changes a hazard slot or a retired list, whatever the other
    threads do between its steps.  A call that runs alone allocates one
    node, sets its [next] to the [head] it saw and makes it the new
    [head]; nothing else changes. *)
Theorem push_leaves_hazard_pointers_alone
    (T : Type) (A : Allocator T) (M : Movable T) :
  (∀ spurious c (w : world T) c' w',
     in_push c = true → step spurious c w = Some (c', w') →
     in_push c' = true
     ∧ (∀ i, slots (hazard w') !!! i = slots (hazard w) !!! i)
     ∧ (∀ t, retired_of (hazard w') t = retired_of (hazard w) t)
     ∧ hazard w' = hazard w)
  ∧ (∀ fuel sp v (w : world T) c' w',
       run fuel sp (PushNew v) w = Some (c', w') → hazard w' = hazard w)
  ∧ (∀ sp fuel v (w : world T),
       length sp + 2 < fuel →
       run fuel sp (PushNew v) w
         = Some (PushRet,
                 {| mem := <[new_addr (mem w) := mkNode v (head w)]> (mem w);
                    head := new_addr (mem w);
                    hazard := hazard w |})).
Proof.
  split; [|split].
  - intros spurious c w c' w' Hc Hs. split; [by eapply step_in_push|].
    rewrite (step_hazard _ _ _ _ _ Hs). done.
  - intros fuel sp v w c' w'. apply run_hazard.
  - intros sp fuel v w Hf. by rewrite run_push.
Qed.

(** A [push(8)] whose compare-exchange fails twice, on the stack of one
    node: the new node is at address 2, above the node at address 1. *)
Lemma push_leaves_hazard_pointers_alone_witness :
  run 5 [true; true] (PushNew 8) Examples.one_node
    = Some (PushRet,
            {| mem := {[1%N := mkNode 7 nullptr; 2%N := mkNode 8 1%N]};
               head := 2%N;
               hazard := init |}).
Proof.
  destruct (push_leaves_hazard_pointers_alone nat _ _) as (_ & _ & Hrun).
  rewrite (Hrun [true; true] 5 8 Examples.one_node) by (simpl; lia).
  by vm_compute.
Defined.

End TreiberClaims.

(** ** Both stacks, one thread *)

Section SequentialClaims.
Import Memory MemoryFacts.

(** C6.  LIFO order: the pushes of [v1], ..., [vn] onto an empty stack
    followed by [n] pops return [vn], ..., [v1].  For the single-threaded
    stack the state is the initial one again.  For the lock-free stack
    used by one thread every call returns, whichever of its
    compare-exchanges fail spuriously, and the stack is empty at the
    end. *)
Theorem lifo_order (T : Type) (A : Allocator T) (M : Movable T) :
  (∀ (vs : list T) h,
     StackSingleThreaded.pops (length vs)
       (StackSingleThreaded.pushes vs (StackSingleThreaded.empty h))
     = Some (Some <$> rev vs, StackSingleThreaded.empty h))
  ∧ (∀ (l : list (T * list bool)) (sps : list (list bool)) fuel h hp,
       length sps = length l →
       Forall (λ sp, 2 * length sp + 3 < fuel) (l.*2 ++ sps) →
       ∃ w', StackTreiber.calls fuel
               (StackTreiber.push_calls l ++ StackTreiber.pop_calls sps)
               (StackTreiber.empty h hp)
             = Some (replicate (length l) StackTreiber.PushRet
                       ++ (StackTreiber.PopRet ∘ Some <$> rev l.*1), w')
             ∧ StackTreiber.head w' = nullptr
             ∧ StackTreiber.hazard w' = hp).
Proof.
  split.
  - intros vs h. apply StackSingleThreadedFacts.pops_pushes.
  - intros l sps fuel h hp Hlen Hfuel.
    apply Forall_app in Hfuel as [Hl Hsps].
    destruct (StackTreiberFacts.calls_push_calls fuel l (StackTreiber.empty h hp) [])
      as (w1 & Hpush & Hw1 & Hhz); [|done|].
    { apply Forall_fmap in Hl. eapply Forall_impl; [exact Hl|].
      intros [v sp]. simpl. lia. }
    rewrite app_nil_r in Hw1.
    destruct (StackTreiberFacts.calls_pop_calls fuel (rev l.*1) sps w1)
      as (w2 & Hpop & Hhd & Hhz2); [|done|done|].
    { by rewrite length_rev, length_fmap. }
    exists w2. rewrite StackTreiberFacts.calls_app, Hpush. simpl.
    rewrite Hpop. simpl. split; [done|]. split; [done|]. by rewrite Hhz2, Hhz.
Qed.

(** Three pushes and three pops on both stacks; on the lock-free one the
    compare-exchanges of four of the calls fail first. *)
Lemma lifo_order_witness :
  StackSingleThreaded.pops 3
    (StackSingleThreaded.pushes [1; 2; 3] (StackSingleThreaded.empty ∅))
  = Some ([Some 3; Some 2; Some 1], StackSingleThreaded.empty ∅)
  ∧ ∃ w', StackTreiber.calls 10
            (StackTreiber.push_calls [(1, [true]); (2, []); (3, [true; false])]
               ++ StackTreiber.pop_calls [[]; [true; true]; [false; true]])
            (StackTreiber.empty ∅ HazardPointerManager.init)
          = Some ([StackTreiber.PushRet; StackTreiber.PushRet; StackTreiber.PushRet;
                   StackTreiber.PopRet (Some 3); StackTreiber.PopRet (Some 2);
                   StackTreiber.PopRet (Some 1)], w')
          ∧ StackTreiber.head w' = nullptr
          ∧ StackTreiber.hazard w' = HazardPointerManager.init.
Proof.
  destruct (lifo_order nat _ _) as [Hsingle Htreiber].
  split; [exact (Hsingle [1; 2; 3] ∅)|].
  apply (Htreiber [(1, [true]); (2, []); (3, [true; false])]
           [[]; [true; true]; [false; true]] 10 ∅ HazardPointerManager.init);
    [reflexivity|].
  repeat (constructor; [simpl; lia|]). constructor.
Defined.

(** C8.  [pop] on an empty stack returns no value at once and leaves the
    stack empty, any number of times.  On the lock-free stack the load of
    [head] finds null and the loop is left before any compare-exchange:
    the call returns after two steps. *)
Theorem pop_empty_returns_nullopt (T : Type) (A : Allocator T) (M : Movable T) :
  (∀ h,
     StackSingleThreaded.pop (StackSingleThreaded.empty h)
     = Some (None, StackSingleThreaded.empty (T := T) h))
  ∧ (∀ n h,
       StackSingleThreaded.pops n (StackSingleThreaded.empty h)
       = Some (replicate n None, StackSingleThreaded.empty (T := T) h))
  ∧ (∀ spurious h hp,
       StackTreiber.step spurious StackTreiber.PopLoad (StackTreiber.empty h hp)
       = Some (StackTreiber.PopWhile nullptr, StackTreiber.empty (T := T) h hp)
       ∧ StackTreiber.step spurious (StackTreiber.PopWhile nullptr) (StackTreiber.empty h hp)
         = Some (StackTreiber.PopRet None, StackTreiber.empty (T := T) h hp))
  ∧ (∀ fuel sp h hp,
       StackTreiber.run (2 + fuel) sp StackTreiber.PopLoad (StackTreiber.empty h hp)
       = Some (StackTreiber.PopRet None, StackTreiber.empty (T := T) h hp))
  ∧ (∀ n fuel sp h hp,
       StackTreiber.calls (2 + fuel) (replicate n (StackTreiber.Pop, sp))
         (StackTreiber.empty h hp)
       = Some (replicate n (StackTreiber.PopRet None), StackTreiber.empty (T := T) h hp)).
Proof.
  split; [|split; [|split; [|split]]].
  - intros h. by apply StackSingleThreadedFacts.pop_nullptr.
  - intros n h. by apply StackSingleThreadedFacts.pops_nullptr.
  - done.
  - intros fuel sp h hp. by apply StackTreiberFacts.run_pop_nullptr.
  - intros n fuel sp h hp. by apply StackTreiberFacts.calls_pop_nullptr.
Qed.

End SequentialClaims.

(* ================================================================== *)
(** * Further properties of the code *)

(** ** StackSingleThreaded: any calls, the free store, the destructor *)

Module OwnershipFacts.
Import Memory MemoryFacts ListStack.

Section Owns.
Context {T : Type}.
Implicit Types (h m : gmap N (Node T)) (p : addr) (vs : list T).

Lemma owns_chain h vs : ∀ m p, owns h m p vs → chain m p vs.
Proof.
  induction vs as [|v vs IH]; intros m p; simpl.
  - by intros [-> _].
  - intros (Hp & nx & m' & Hfresh & -> & Ho). split; [done|]. exists nx.
    split; [by rewrite lookup_insert_eq|].
    apply chain_insert_fresh; [done|]. by apply IH.
Qed.

Lemma owns_subseteq h vs : ∀ m p, owns h m p vs → h ⊆ m.
Proof.
  induction vs as [|v vs IH]; intros m p; simpl.
  - by intros [_ ->].
  - intros (Hp & nx & m' & Hfresh & -> & Ho).
    pose proof (IH _ _ Ho) as Hsub.
    apply insert_subseteq_r; [|done]. by eapply lookup_weaken_None.
Qed.

Lemma owns_size h vs : ∀ m p, owns h m p vs → size m = size h + length vs.
Proof.
  induction vs as [|v vs IH]; intros m p; simpl.
  - intros [_ ->]. lia.
  - intros (Hp & nx & m' & Hfresh & -> & Ho).
    rewrite map_size_insert_None by done. rewrite (IH _ _ Ho). lia.
Qed.

Lemma model_cons (c : call T) cs vs :
  model (c :: cs) vs =
    ((apply c vs).1 :: (model cs (apply c vs).2).1, (model cs (apply c vs).2).2).
Proof.
  simpl. destruct (apply c vs) as [e vs1]. simpl.
  by destruct (model cs vs1) as [es vs2].
Qed.

Lemma model_app (cs1 cs2 : list (call T)) : ∀ vs,
  model (cs1 ++ cs2) vs =
    ((model cs1 vs).1 ++ (model cs2 (model cs1 vs).2).1,
     (model cs2 (model cs1 vs).2).2).
Proof.
  induction cs1 as [|c cs1 IH]; intros vs.
  - simpl. by destruct (model cs2 vs).
  - rewrite <- app_comm_cons, !model_cons. simpl. by rewrite IH.
Qed.

End Owns.
End OwnershipFacts.

Module StackSingleThreadedCalls.
Import Memory MemoryFacts ListStack OwnershipFacts.
Import StackSingleThreaded StackSingleThreadedFacts.

Section Facts.
Context {T : Type} `{!Allocator T}.
Implicit Types (s : state T) (v : T) (vs : list T) (h : gmap N (Node T)).

Lemma push_owns h v s vs :
  owns h (mem s) (head s) vs → owns h (mem (push v s)) (head (push v s)) (v :: vs).
Proof.
  intros Ho. rewrite head_push, mem_push. split; [apply new_addr_nonnull|].
  exists (head s), (mem s). split; [apply new_addr_fresh|]. by split.
Qed.

Lemma pop_owns h v s vs :
  owns h (mem s) (head s) (v :: vs) →
  ∃ s', pop s = Some (Some v, s') ∧ owns h (mem s') (head s') vs.
Proof.
  intros (Hp & nx & m' & Hfresh & Hm & Ho). unfold pop.
  rewrite decide_False by done. rewrite Hm, lookup_insert_eq. simpl.
  eexists. split; [done|]. simpl. by rewrite delete_insert_id.
Qed.

Lemma exec_holds cs : ∀ s vs,
  holds s vs → ∃ s', exec cs s = Some ((model cs vs).1, s') ∧ holds s' (model cs vs).2.
Proof.
  induction cs as [|[v|] cs IH]; intros s vs Hs.
  - by exists s.
  - destruct (IH _ _ (push_holds v s vs Hs)) as (s' & He & Hs').
    exists s'. rewrite model_cons. simpl. by rewrite He.
  - rewrite model_cons. destruct vs as [|v vs]; simpl.
    + destruct (IH s [] Hs) as (s' & He & Hs').
      exists s'. rewrite pop_nullptr by exact Hs. simpl. by rewrite He.
    + destruct (pop_holds v s vs Hs) as (s1 & Hpop & Hs1).
      destruct (IH s1 vs Hs1) as (s' & He & Hs').
      exists s'. rewrite Hpop. simpl. by rewrite He.
Qed.

Lemma exec_owns h cs : ∀ s vs,
  owns h (mem s) (head s) vs →
  ∃ s', exec cs s = Some ((model cs vs).1, s')
        ∧ owns h (mem s') (head s') (model cs vs).2.
Proof.
  induction cs as [|[v|] cs IH]; intros s vs Hs.
  - by exists s.
  - destruct (IH _ _ (push_owns h v s vs Hs)) as (s' & He & Hs').
    exists s'. rewrite model_cons. simpl. by rewrite He.
  - rewrite model_cons. destruct vs as [|v vs]; simpl.
    + destruct (IH s [] Hs) as (s' & He & Hs').
      exists s'. rewrite pop_nullptr by apply Hs. simpl. by rewrite He.
    + destruct (pop_owns h v s vs Hs) as (s1 & Hpop & Hs1).
      destruct (IH s1 vs Hs1) as (s' & He & Hs').
      exists s'. rewrite Hpop. simpl. by rewrite He.
Qed.

Lemma destroy_owns h vs : ∀ s k,
  owns h (mem s) (head s) vs → destroy (length vs + k) s = Some (empty h).
Proof.
  induction vs as [|v vs IH]; intros s k.
  - intros [Hp Hm]. destruct s as [m p]. simpl in *. subst.
    by destruct k.
  - intros (Hp & nx & m' & Hfresh & Hm & Ho). simpl.
    rewrite decide_False by done. rewrite Hm, lookup_insert_eq. simpl.
    rewrite delete_insert_id by done. by apply IH.
Qed.

End Facts.
End StackSingleThreadedCalls.

Section SingleThreadedExtras.
Import Memory MemoryFacts ListStack OwnershipFacts.
Import StackSingleThreaded StackSingleThreadedFacts StackSingleThreadedCalls.

(** X1.  A [StackSingleThreaded] is a list: on a stack that holds [vs],
    calls of [push] and [pop] in any order are defined (no dangling
    pointer is dereferenced), return what the same calls return on the
    list [vs], and leave the stack holding what the list holds. *)
Theorem single_threaded_stack_is_a_list
    (T : Type) (A : Allocator T) (cs : list (call T)) (s : state T) (vs : list T) :
  holds s vs →
  ∃ s', exec cs s = Some ((model cs vs).1, s') ∧ holds s' (model cs vs).2.
Proof. apply exec_holds. Qed.

Lemma two_nodes_holds : holds Examples.two_nodes [2; 1].
Proof.
  split; [done|]. exists 1%N. split; [done|].
  split; [done|]. exists nullptr. by split.
Qed.

Lemma two_nodes_owns :
  owns {[9%N := mkNode 0 9%N]} (mem Examples.two_nodes) (head Examples.two_nodes) [2; 1].
Proof.
  split; [done|]. exists 1%N, {[1%N := mkNode 1 nullptr; 9%N := mkNode 0 9%N]}.
  split; [done|]. split; [by vm_compute|].
  split; [done|]. exists nullptr, {[9%N := mkNode 0 9%N]}.
  split; [done|]. split; [by vm_compute|]. by split.
Qed.

(** On the stack that holds 2 above 1: the third pop finds it empty. *)
Lemma single_threaded_stack_is_a_list_witness :
  ∃ s', exec [Pop; Push 5; Pop; Pop; Pop; Push 6] Examples.two_nodes
        = Some ([Popped (Some 2); Pushed 5; Popped (Some 5); Popped (Some 1);
                 Popped None; Pushed 6], s')
        ∧ holds s' [6].
Proof.
  exact (single_threaded_stack_is_a_list nat _
           [Pop; Push 5; Pop; Pop; Pop; Push 6] Examples.two_nodes [2; 1]
           two_nodes_holds).
Defined.

(** X2.  The stack owns one node for each value it holds and nothing else:
    when the free store is [h] and the nodes of the stack, it is so again
    after calls of [push] and [pop] in any order.  So the nodes of [h] are
    as they were, and the number of live nodes is that of [h] plus the
    number of values held. *)
Theorem single_threaded_stack_owns_its_nodes
    (T : Type) (A : Allocator T) (cs : list (call T)) (s : state T) (vs : list T)
    (h : gmap N (Node T)) :
  owns h (mem s) (head s) vs →
  ∃ tr s', exec cs s = Some (tr, s')
    ∧ owns h (mem s') (head s') (model cs vs).2
    ∧ h ⊆ mem s'
    ∧ size (mem s') = size h + length (model cs vs).2.
Proof.
  intros Ho. destruct (exec_owns h cs s vs Ho) as (s' & He & Ho').
  exists (model cs vs).1, s'. split; [done|]. split; [done|].
  split; [by eapply owns_subseteq | by eapply owns_size].
Qed.

(** Five calls on the stack of two nodes: one value is left, in one node
    beside the node at address 9. *)
Lemma single_threaded_stack_owns_its_nodes_witness :
  ∃ tr s', exec [Pop; Push 5; Pop; Pop; Push 6] Examples.two_nodes = Some (tr, s')
    ∧ owns {[9%N := mkNode 0 9%N]} (mem s') (head s') [6]
    ∧ {[9%N := mkNode 0 9%N]} ⊆ mem s'
    ∧ size (mem s') = 2.
Proof.
  exact (single_threaded_stack_owns_its_nodes nat _
           [Pop; Push 5; Pop; Pop; Push 6] Examples.two_nodes [2; 1] _
           two_nodes_owns).
Defined.

(** X3.  The destructor frees the nodes of the stack and no other: after
    calls of [push] and [pop] in any order, its loop ends within as many
    turns as the stack holds values, with [head] null and the free store
    that there was beside the stack. *)
Theorem destructor_frees_the_stack
    (T : Type) (A : Allocator T) (cs : list (call T)) (s : state T) (vs : list T)
    (h : gmap N (Node T)) :
  owns h (mem s) (head s) vs →
  ∃ tr s', exec cs s = Some (tr, s')
    ∧ ∀ k, destroy (length (model cs vs).2 + k) s' = Some (empty h).
Proof.
  intros Ho. destruct (exec_owns h cs s vs Ho) as (s' & He & Ho').
  exists (model cs vs).1, s'. split; [done|].
  intros k. by apply destroy_owns.
Qed.

(** The destructor on the stack of two nodes, at once and after two more
    pushes: the node at address 9 is what is left. *)
Lemma destructor_frees_the_stack_witness :
  destroy 2 Examples.two_nodes = Some (empty {[9%N := mkNode 0 9%N]})
  ∧ ∃ tr s', exec [Push 5; Push 6] Examples.two_nodes = Some (tr, s')
      ∧ ∀ k, destroy (4 + k) s' = Some (empty {[9%N := mkNode 0 9%N]}).
Proof.
  split.
  - destruct (destructor_frees_the_stack nat _ [] Examples.two_nodes [2; 1] _
                two_nodes_owns) as (tr & s' & [= <- <-] & Hd).
    exact (Hd 0).
  - exact (destructor_frees_the_stack nat _ [Push 5; Push 6] Examples.two_nodes
             [2; 1] _ two_nodes_owns).
Defined.

End SingleThreadedExtras.

(** ** StackTreiber: any calls of one thread, and the nodes it leaves *)

Module StackTreiberCalls.
Import Memory MemoryFacts ListStack OwnershipFacts.
Import StackTreiber StackTreiberFacts.

Section Facts.
Context {T : Type} `{!Allocator T} `{!Movable T}.
Implicit Types (w : world T) (v : T) (vs : list T).

Lemma run_pop_null sp fuel w :
  head w = nullptr → 1 < fuel → run fuel sp PopLoad w = Some (PopRet None, w).
Proof.
  intros E Hf. destruct fuel as [|[|fuel]]; [lia..|]. by apply run_pop_nullptr.
Qed.

Lemma dom_mem_pushed v w : dom (mem w) ⊆ dom (mem (pushed v w)).
Proof. simpl. apply dom_insert_subseteq. Qed.

Lemma size_mem_pushed v w : size (mem (pushed v w)) = S (size (mem w)).
Proof. simpl. apply map_size_insert_None, new_addr_fresh. Qed.

Lemma dom_mem_popped v nx w x :
  mem w !! head w = Some x → dom (mem (popped v nx w)) = dom (mem w).
Proof. intros Hx. simpl. apply dom_insert_lookup_L. by rewrite Hx. Qed.

Lemma size_mem_popped v nx w x :
  mem w !! head w = Some x → size (mem (popped v nx w)) = size (mem w).
Proof. intros Hx. simpl. by erewrite map_size_insert_Some. Qed.

(** The calls of one thread, in any order, against the list. *)
Lemma calls_model fuel ops : ∀ w vs,
  Forall (λ x, 2 * length x.2 + 3 < fuel) ops → holds w vs →
  ∃ w', calls fuel ops w = Some (returns <$> (model (call_of <$> ops.*1) vs).1, w')
        ∧ holds w' (model (call_of <$> ops.*1) vs).2
        ∧ hazard w' = hazard w
        ∧ dom (mem w) ⊆ dom (mem w')
        ∧ size (mem w') = size (mem w) + length (pushed_values ops).
Proof.
  induction ops as [|[[v|] sp] ops IH]; intros w vs Hf Hw.
  - exists w. simpl. repeat split; [done..|lia].
  - apply Forall_cons in Hf as [Hsp Hf]. simpl in Hsp.
    destruct (IH (pushed v w) (v :: vs) Hf (pushed_holds v w vs Hw))
      as (w' & Hc & Hw' & Hhz & Hsub & Hsize).
    exists w'. cbn [fmap list_fmap fst call_of]. rewrite model_cons.
    cbn [calls entry]. rewrite run_push by lia. simpl. rewrite Hc. simpl.
    split; [done|]. split; [done|]. split; [done|]. split.
    + etrans; [apply (dom_mem_pushed v w)|done].
    + rewrite Hsize, size_mem_pushed. lia.
  - apply Forall_cons in Hf as [Hsp Hf]. simpl in Hsp.
    cbn [fmap list_fmap fst call_of]. rewrite model_cons. cbn [calls entry].
    destruct vs as [|v vs].
    + destruct (IH w [] Hf Hw) as (w' & Hc & Hw' & Hhz & Hsub & Hsize).
      exists w'. rewrite run_pop_null by (done || lia). simpl. rewrite Hc. simpl.
      by repeat split.
    + destruct Hw as (Hp & nx & Hnx & Hch).
      destruct (IH (popped v nx w) vs Hf (popped_holds v nx w vs Hp Hnx Hch))
        as (w' & Hc & Hw' & Hhz & Hsub & Hsize).
      exists w'. rewrite (run_pop sp fuel w v nx) by done. simpl. rewrite Hc. simpl.
      split; [done|]. split; [done|]. split; [done|]. split.
      * by rewrite <- (dom_mem_popped v nx w _ Hnx).
      * by rewrite Hsize, (size_mem_popped v nx w _ Hnx).
Qed.

End Facts.
End StackTreiberCalls.

Section TreiberExtras.
Import Memory MemoryFacts ListStack OwnershipFacts.
Import StackTreiber StackTreiberFacts StackTreiberCalls.

(** X4.  A [StackTreiber] that one thread uses is a list: on a stack that
    holds [vs], calls of [push] and [pop] in any order return, whichever of
    their compare-exchanges fail spuriously, with the results of the same
    calls on the list [vs], and leave the stack holding what the list
    holds.  No call changes the state of the hazard-pointer manager. *)
Theorem treiber_stack_of_one_thread_is_a_list
    (T : Type) (A : Allocator T) (M : Movable T)
    (ops : list (op T * list bool)) (fuel : nat) (w : world T) (vs : list T) :
  holds w vs →
  Forall (λ x, 2 * length x.2 + 3 < fuel) ops →
  ∃ w', calls fuel ops w = Some (returns <$> (model (call_of <$> ops.*1) vs).1, w')
        ∧ holds w' (model (call_of <$> ops.*1) vs).2
        ∧ hazard w' = hazard w.
Proof.
  intros Hw Hf.
  destruct (calls_model fuel ops w vs Hf Hw) as (w' & Hc & Hw' & Hhz & _).
  exists w'. by repeat split.
Qed.

Lemma one_node_holds : holds Examples.one_node [7].
Proof. split; [done|]. exists nullptr. by split. Qed.

(** On the stack that holds 7: a pop, a pop of the empty stack, two
    pushes and two pops, with compare-exchanges that fail first. *)
Lemma treiber_stack_of_one_thread_is_a_list_witness :
  ∃ w', calls 8 [(Pop, [true]); (Pop, []); (Push 1, [true; true]); (Push 2, []);
                 (Pop, [false; true]); (Pop, [true])] Examples.one_node
        = Some ([PopRet (Some 7); PopRet None; PushRet; PushRet;
                 PopRet (Some 2); PopRet (Some 1)], w')
        ∧ holds w' []
        ∧ hazard w' = HazardPointerManager.init.
Proof.
  apply (treiber_stack_of_one_thread_is_a_list nat _ _
           [(Pop, [true]); (Pop, []); (Push 1, [true; true]); (Push 2, []);
            (Pop, [false; true]); (Pop, [true])] 8 Examples.one_node [7]
           one_node_holds).
  repeat (constructor; [simpl; lia|]). constructor.
Defined.

(** X5.  [StackTreiber] frees nothing: after calls of [push] and [pop] by
    one thread, in any order, every address that held a live node holds
    one, a popped node too, in the state in which the move of its value
    left it; and one more node is live for every [push], popped or not. *)
Theorem treiber_stack_never_frees
    (T : Type) (A : Allocator T) (M : Movable T)
    (ops : list (op T * list bool)) (fuel : nat) (w : world T) (vs : list T) :
  holds w vs →
  Forall (λ x, 2 * length x.2 + 3 < fuel) ops →
  ∃ cs w', calls fuel ops w = Some (cs, w')
        ∧ dom (mem w) ⊆ dom (mem w')
        ∧ size (mem w') = size (mem w) + length (pushed_values ops).
Proof.
  intros Hw Hf.
  destruct (calls_model fuel ops w vs Hf Hw) as (w' & Hc & _ & _ & Hsub & Hsize).
  by eexists _, w'.
Qed.

Lemma one_vector_holds : holds Examples.one_vector [[7; 8]].
Proof. split; [done|]. exists nullptr. by split. Qed.

(** A push and two pops on the stack of one vector: the stack is empty,
    two nodes are live, and the node at address 1 is one of them. *)
Lemma treiber_stack_never_frees_witness :
  ∃ cs w', @calls (list nat) _ Examples.emptied 8
             [(Push [1], [true]); (Pop, []); (Pop, [true])] Examples.one_vector
           = Some (cs, w')
        ∧ dom (mem Examples.one_vector) ⊆ dom (mem w')
        ∧ size (mem w') = 2.
Proof.
  apply (treiber_stack_never_frees (list nat) _ Examples.emptied
           [(Push [1], [true]); (Pop, []); (Pop, [true])]
           8 Examples.one_vector [[7; 8]] one_vector_holds).
  repeat (constructor; [simpl; lia|]). constructor.
Defined.

End TreiberExtras.

(** ** HazardPointerManager: the snapshot, and calls of [retire] in a row *)

Module HazardPointerManagerCalls.
Import HazardPointerManager HazardPointerManagerFacts.

Implicit Types (sl : vec Slot MAX_HAZARD_POINTERS) (rl : list addr) (st : state).

Lemma size_foldl_hazards_insert (l : list Slot) : ∀ acc : gset N,
  size (foldl hazards_insert acc l) ≤ size acc + length l.
Proof.
  induction l as [|s l IH]; intros acc; simpl; [lia|].
  etrans; [apply IH|]. unfold hazards_insert.
  destruct (decide (ptr s = nullptr)); [lia|].
  rewrite size_union_alt, size_singleton.
  assert (size (acc ∖ {[ptr s]}) ≤ size acc); [|lia].
  apply subseteq_size. apply subseteq_difference_l. done.
Qed.

Lemma size_hazards sl rl : size (hazards (reclaim sl rl)) ≤ MAX_HAZARD_POINTERS.
Proof.
  unfold reclaim. simpl.
  etrans; [apply size_foldl_hazards_insert|].
  by rewrite size_empty, length_vec_to_list.
Qed.

Lemma trace_reclaim_lookup sl rl (i : fin MAX_HAZARD_POINTERS) :
  trace (reclaim sl rl) !! (fin_to_nat i) = Some (SlotLoad i (ptr (sl !!! i))).
Proof.
  unfold reclaim. simpl. rewrite list_lookup_imap.
  assert (vec_to_list sl !! fin_to_nat i = Some (sl !!! i)) as ->; [|done].
  by apply vlookup_lookup.
Qed.

(** The pointers that thread [t] retires in [cs], in order. *)
Lemma retires_cons t p cs st :
  retires ((t, p) :: cs) st =
    ((retires cs (retire t p st).1).1,
     (retire t p st).2 ++ (retires cs (retire t p st).1).2).
Proof.
  simpl. destruct (retire t p st) as [st1 tr1]. simpl.
  by destruct (retires cs st1) as [st2 tr2].
Qed.

Lemma deleted_app tr1 tr2 : deleted (tr1 ++ tr2) = deleted tr1 ++ deleted tr2.
Proof. unfold deleted. apply omap_app. Qed.

Lemma retires_spec cs : ∀ st,
  slots (retires cs st).1 = slots st
  ∧ (∀ t, retired_of (retires cs st).1 t
          = retired_of st t ++ (filter (λ x, x.1 = t) cs).*2)
  ∧ deleted (retires cs st).2 = [].
Proof.
  induction cs as [|[t p] cs IH]; intros st.
  - simpl. split; [done|]. split; [|done]. intros t. by rewrite app_nil_r.
  - rewrite retires_cons. cbn [fst snd].
    destruct (IH (retire t p st).1) as (Hsl & Hrt & Hdel).
    split; [by rewrite Hsl, retire_state|]. split.
    + intros t'. rewrite Hrt, retire_state, retired_of_insert.
      rewrite filter_cons. simpl. destruct (decide (t = t')) as [->|Hne].
      * by rewrite <- app_assoc.
      * done.
    + by rewrite deleted_app, deleted_retire, Hdel.
Qed.

End HazardPointerManagerCalls.

Section ManagerExtras.
Import HazardPointerManager HazardPointerManagerFacts HazardPointerManagerCalls.

(** X6.  The snapshot of [reclaim] is the set of the pointers that the 128
    slots hold, null left out: a pointer is in [hazards] exactly when it
    is not null and some slot holds it.  The set has at most 128 elements,
    the number that [reserve] asked for, and every slot is loaded once, in
    the order of the table. *)
Theorem snapshot_is_the_nonnull_slots
    (sl : vec Slot MAX_HAZARD_POINTERS) (rl : list addr) :
  (∀ p, p ∈ hazards (reclaim sl rl) ↔ p ≠ nullptr ∧ ∃ i, ptr (sl !!! i) = p)
  ∧ (nullptr ∉ hazards (reclaim sl rl))
  ∧ size (hazards (reclaim sl rl)) ≤ MAX_HAZARD_POINTERS
  ∧ length (trace (reclaim sl rl)) = MAX_HAZARD_POINTERS
  ∧ (∀ i : fin MAX_HAZARD_POINTERS,
       trace (reclaim sl rl) !! (fin_to_nat i) = Some (SlotLoad i (ptr (sl !!! i)))).
Proof.
  split; [intros p; apply elem_of_hazards|].
  split; [rewrite elem_of_hazards; by intros [? _]|].
  split; [apply size_hazards|].
  split; [apply length_trace_reclaim | apply trace_reclaim_lookup].
Qed.

(** X7.  Calls of [retire] never shorten a retired list: after calls by any
    threads, in any order, the list of a thread is what it was followed by
    the pointers the thread retired, in the order of its calls, however
    many scans took place.  No call runs the deleter or writes a slot. *)
Theorem retired_lists_only_grow (cs : list (nat * addr)) (st : state) :
  (∀ t, retired_of (retires cs st).1 t
        = retired_of st t ++ (filter (λ x, x.1 = t) cs).*2)
  ∧ deleted (retires cs st).2 = []
  ∧ slots (retires cs st).1 = slots st.
Proof.
  destruct (retires_spec cs st) as (Hsl & Hrt & Hdel). by repeat split.
Qed.

End ManagerExtras.

(** ** StackLocked: threads that run together *)

Module StackLockedFacts.
Import Memory MemoryFacts ListStack OwnershipFacts StackLocked.

Section Facts.
Context {T : Type} `{!Allocator T}.
Implicit Types (w : world T) (c : pc T) (cf : config T) (vs : list T) (t : nat).

Lemma legal_nil vs : legal vs (@nil (event T)).
Proof. reflexivity. Qed.

Lemma after_nil vs : after vs (@nil (event T)) = vs.
Proof. reflexivity. Qed.

Lemma legal_one vs (e : event T) : (apply (call_of e) vs).1 = e → legal vs [e].
Proof.
  intros H. unfold legal. change (call_of <$> [e]) with [call_of e].
  rewrite model_cons. simpl. by rewrite H.
Qed.

Lemma after_one vs (e : event T) : after vs [e] = (apply (call_of e) vs).2.
Proof.
  unfold after. change (call_of <$> [e]) with [call_of e]. by rewrite model_cons.
Qed.

Lemma legal_app vs (tr1 tr2 : list (event T)) :
  legal vs tr1 → legal (after vs tr1) tr2 → legal vs (tr1 ++ tr2).
Proof.
  unfold legal, after. intros H1 H2. rewrite fmap_app, model_app. simpl.
  by rewrite H1, H2.
Qed.

Lemma after_app vs (tr1 tr2 : list (event T)) :
  after vs (tr1 ++ tr2) = after (after vs tr1) tr2.
Proof. unfold after. by rewrite fmap_app, model_app. Qed.

(** A step of the thread that owns the mutex: the call goes on, or it
    returns what the list returns and leaves the stack as the list is. *)
Lemma step_cs t c w vs :
  m w = Some t → in_cs c = true → cs_inv c w vs →
  (∃ c' w', step t c w = Next c' w' ∧ in_cs c' = true ∧ m w' = Some t
            ∧ cs_inv c' w' vs)
  ∨ (∃ e w', step t c w = Return e w' ∧ m w' = None
             ∧ (apply (call_of e) vs).1 = e
             ∧ holds w' (apply (call_of e) vs).2).
Proof.
  intros Hm Hc Hinv.
  destruct c as [v|v|v n|v n|v| | | |n|n|n val|[v|]]; try done; simpl in Hinv.
  - left. eexists _, _. split; [done|]. split; [done|]. split; [done|]. simpl.
    exists (mem w). split; [apply new_addr_fresh|]. split; [apply new_addr_nonnull|done].
  - destruct Hinv as (m0 & Hfresh & Hn & Hmem & Hch).
    left. simpl. rewrite Hmem, lookup_insert_eq.
    eexists _, _. split; [done|]. split; [done|]. split; [done|]. simpl.
    rewrite insert_insert_eq. split; [done|]. exists (head w).
    split; [by rewrite lookup_insert_eq|]. by apply chain_insert_fresh.
  - left. eexists _, _. split; [done|]. split; [done|]. split; [done|]. exact Hinv.
  - right. simpl. unfold unlock. rewrite decide_True by done.
    eexists _, _. split; [done|]. split; [done|]. split; [done|]. exact Hinv.
  - left. simpl. destruct (decide (head w = nullptr)) as [E|E].
    + eexists _, _. split; [done|]. split; [done|]. split; [done|]. simpl.
      unfold holds in Hinv. rewrite E in Hinv. apply chain_null in Hinv as ->.
      split; [done|]. exact E.
    + eexists _, _. split; [done|]. split; [done|]. split; [done|]. by split.
  - left. destruct Hinv as [Hh Hp].
    eexists _, _. split; [done|]. split; [done|]. split; [done|]. by split.
  - destruct Hinv as (Hh & Hp & ->). left. simpl.
    destruct vs as [|v vs]; [done|]. destruct Hh as (_ & nx & Hnx & Hch).
    rewrite Hnx. eexists _, _. split; [done|]. split; [done|]. split; [done|].
    simpl. exists v, vs. split; [done|]. split; [done|]. by split.
  - destruct Hinv as (v & vs' & -> & Hn & Hnd & Hch). left. simpl. rewrite Hnd.
    eexists _, _. split; [done|]. split; [done|]. split; [done|]. simpl.
    exists vs'. split; [done|]. split; [done|]. by split.
  - destruct Hinv as (vs' & -> & Hn & Hnd & Hch). left. simpl. rewrite Hnd.
    eexists _, _. split; [done|]. split; [done|]. split; [done|]. simpl.
    exists vs'. split; [done|]. unfold holds. simpl. by eapply chain_delete_top.
  - destruct Hinv as (vs' & -> & Hh). right. simpl. unfold unlock.
    rewrite decide_True by done.
    eexists _, _. split; [done|]. split; [done|]. split; [done|]. exact Hh.
  - destruct Hinv as (-> & Hh). right. simpl. unfold unlock.
    rewrite decide_True by done.
    eexists _, _. split; [done|]. split; [done|]. split; [done|]. exact Hh.
Qed.

(** A step of a thread that is not past its lock: it takes the mutex when
    nobody owns it and waits otherwise. *)
Lemma step_lock t c w :
  in_cs c = false → m w ≠ Some t →
  match m w with
  | None => ∃ c', step t c w = Next c' (set_m w (Some t)) ∧ in_cs c' = true
                  ∧ ∀ vs, holds w vs → cs_inv c' (set_m w (Some t)) vs
  | Some _ => step t c w = Blocked
  end.
Proof.
  intros Hc Hm. destruct c; try done; simpl; unfold lock;
    (destruct (m w) as [t'|] eqn:E;
      [rewrite decide_False by congruence; done
      |eexists; split; [done|]; split; [done|]; by intros vs Hh]).
Qed.

Lemma act_inv a cf vs :
  inv vs cf →
  ∃ cf' tr, act a cf = Some (cf', tr) ∧ legal vs tr ∧ inv (after vs tr) cf'.
Proof.
  intros Hinv0. pose proof Hinv0 as [Hown Hst]. destruct a as [t c|t]; simpl.
  - destruct (pool cf !! t) as [c0|] eqn:Ht.
    { exists cf, []. by repeat split. }
    eexists _, []. split; [done|]. split; [apply legal_nil|].
    rewrite after_nil. split; simpl.
    + intros t' c'. rewrite lookup_insert. destruct (decide (t = t')) as [->|Hne].
      * intros [= <-]. by destruct c.
      * apply Hown.
    + destruct (m (shared cf)) as [t0|]; [|done].
      destruct Hst as (c0 & Hc0 & Hcs & Hinv). exists c0.
      rewrite lookup_insert_ne by congruence. done.
  - destruct (pool cf !! t) as [c|] eqn:Ht.
    2:{ exists cf, []. by repeat split. }
    destruct (in_cs c) eqn:Hc.
    + pose proof (Hown t c Ht Hc) as Hm. rewrite Hm in Hst.
      destruct Hst as (c0 & Hc0 & _ & Hinv). rewrite Ht in Hc0. injection Hc0 as <-.
      destruct (step_cs t c (shared cf) vs Hm Hc Hinv)
        as [(c' & w' & -> & Hc' & Hm' & Hinv')|(e & w' & -> & Hm' & He & Hh)].
      * eexists _, []. split; [done|]. split; [apply legal_nil|].
        rewrite after_nil. split; simpl.
        -- intros t' c''. rewrite lookup_insert. destruct (decide (t = t')) as [->|Hne].
           ++ by rewrite Hm'.
           ++ intros Ht' Hc''. pose proof (Hown t' c'' Ht' Hc''). congruence.
        -- rewrite Hm'. exists c'. by rewrite lookup_insert_eq.
      * eexists _, [e]. split; [done|]. split; [by apply legal_one|].
        rewrite after_one. split; simpl.
        -- intros t' c''. rewrite lookup_delete. destruct (decide (t = t')) as [->|Hne].
           ++ done.
           ++ intros Ht' Hc''. pose proof (Hown t' c'' Ht' Hc''). congruence.
        -- by rewrite Hm'.
    + assert (m (shared cf) ≠ Some t) as Hm.
      { intros Hm. rewrite Hm in Hst. destruct Hst as (c0 & Hc0 & Hcs & _). congruence. }
      pose proof (step_lock t c (shared cf) Hc Hm) as Hl.
      destruct (m (shared cf)) as [t0|] eqn:E.
      * rewrite Hl. exists cf, []. split; [done|]. split; [apply legal_nil|].
        by rewrite after_nil.
      * destruct Hl as (c' & -> & Hc' & Hinv').
        eexists _, []. split; [done|]. split; [apply legal_nil|].
        rewrite after_nil. split; simpl.
        -- intros t' c''. rewrite lookup_insert. destruct (decide (t = t')) as [->|Hne].
           ++ done.
           ++ intros Ht' Hc''. pose proof (Hown t' c'' Ht' Hc''). congruence.
        -- exists c'. rewrite lookup_insert_eq. split; [done|]. split; [done|].
           by apply Hinv'.
Qed.

Lemma exec_inv sched : ∀ cf vs,
  inv vs cf →
  ∃ cf' tr, exec sched cf = Some (cf', tr) ∧ legal vs tr ∧ inv (after vs tr) cf'.
Proof.
  induction sched as [|a sched IH]; intros cf vs Hinv.
  - exists cf, []. split; [done|]. split; [apply legal_nil|]. by rewrite after_nil.
  - destruct (act_inv a cf vs Hinv) as (cf1 & tr1 & Ha & Hl1 & Hinv1).
    destruct (IH cf1 _ Hinv1) as (cf2 & tr2 & He & Hl2 & Hinv2).
    exists cf2, (tr1 ++ tr2). simpl. rewrite Ha. simpl. rewrite He. simpl.
    split; [done|]. split; [by apply legal_app|]. by rewrite after_app.
Qed.

Lemma inv_initial (h : gmap N (Node T)) : inv [] (initial h).
Proof. split; [|done]. intros t c. simpl. by rewrite lookup_empty. Qed.

(** What the invariant gives: one thread at most is past its lock, some
    thread can take a step when a call is under way, and the mutex is free
    when none is. *)
Lemma inv_exclusion vs cf t1 t2 c1 c2 :
  inv vs cf → pool cf !! t1 = Some c1 → pool cf !! t2 = Some c2 →
  in_cs c1 = true → in_cs c2 = true → t1 = t2.
Proof.
  intros [Hown _] H1 H2 Hc1 Hc2.
  pose proof (Hown _ _ H1 Hc1). pose proof (Hown _ _ H2 Hc2). congruence.
Qed.

Lemma inv_can_run vs cf : inv vs cf → pool cf ≠ ∅ → ∃ t, can_run cf t.
Proof.
  intros [Hown Hst] Hne. destruct (m (shared cf)) as [t|] eqn:E.
  - destruct Hst as (c & Hc & Hcs & Hinv). exists t, c. split; [done|].
    destruct (step_cs t c (shared cf) vs E Hcs Hinv)
      as [(c' & w' & -> & _)|(e & w' & -> & _)]; done.
  - apply map_choose in Hne as (t & c & Hc). exists t, c. split; [done|].
    destruct (in_cs c) eqn:Hcs.
    + pose proof (Hown _ _ Hc Hcs). congruence.
    + assert (m (shared cf) ≠ Some t) as Hm by congruence.
      pose proof (step_lock t c (shared cf) Hcs Hm) as Hl. rewrite E in Hl.
      destruct Hl as (c' & -> & _). done.
Qed.

Lemma inv_quiet vs cf : inv vs cf → pool cf = ∅ → m (shared cf) = None.
Proof.
  intros [_ Hst] Hp. destruct (m (shared cf)) as [t|]; [|done].
  destruct Hst as (c & Hc & _). by rewrite Hp, lookup_empty in Hc.
Qed.

End Facts.
End StackLockedFacts.

Section LockedExtras.
Import Memory MemoryFacts ListStack OwnershipFacts StackLocked StackLockedFacts.

Lemma inv_at_rest (T : Type) (cf : config T) (vs : list T) :
  pool cf = ∅ → m (shared cf) = None → holds (shared cf) vs → inv vs cf.
Proof.
  intros Hp Hm Hh. split; [|by rewrite Hm].
  intros t c. by rewrite Hp, lookup_empty.
Qed.

(** X8.  A [StackLocked] that threads use together is a list: from a stack
    at rest that holds [vs], whatever calls of [push] and [pop] the
    threads make and however their steps interleave, no step is undefined
    (no dangling pointer is dereferenced, no node is freed twice, the
    mutex is unlocked by its owner), the calls that have returned, taken
    in the order in which they returned, have the results that the same
    calls have on the list [vs], and when nobody owns the mutex the stack
    holds what the list holds after them. *)
Theorem locked_stack_is_a_list
    (T : Type) (A : Allocator T) (sched : list (action T)) (cf : config T)
    (vs : list T) :
  pool cf = ∅ → m (shared cf) = None → holds (shared cf) vs →
  ∃ cf' tr, exec sched cf = Some (cf', tr)
    ∧ legal vs tr
    ∧ (m (shared cf') = None → holds (shared cf') (after vs tr)).
Proof.
  intros Hp Hm Hh.
  destruct (exec_inv sched cf vs (inv_at_rest T cf vs Hp Hm Hh))
    as (cf' & tr & He & Hl & [_ Hst]).
  exists cf', tr. split; [done|]. split; [done|].
  intros Hm'. by rewrite Hm' in Hst.
Qed.

Lemma locked_one_node_holds : holds (shared Examples.locked_one_node) [7].
Proof. split; [done|]. exists nullptr. by split. Qed.

(** Two threads on the stack that holds 7: the pop of thread 1 returns 7,
    then the push of thread 0 returns, then thread 1 pops the 1. *)
Lemma locked_stack_is_a_list_witness :
  ∃ cf', exec Examples.two_threads Examples.locked_one_node
           = Some (cf', [Popped (Some 7); Pushed 1; Popped (Some 1)])
    ∧ legal [7] [Popped (Some 7); Pushed 1; Popped (Some 1)]
    ∧ holds (shared cf') [].
Proof.
  destruct (locked_stack_is_a_list nat _ Examples.two_threads
              Examples.locked_one_node [7] eq_refl eq_refl locked_one_node_holds)
    as (cf' & tr & He & Hl & Hh).
  vm_compute in He. injection He as <- <-.
  eexists. split; [by vm_compute|]. split; [exact Hl|]. by apply Hh.
Defined.

(** X9.  The mutex of a [StackLocked] does its work: however the steps of
    the threads interleave, one thread at most is between its lock and
    its unlock; as long as a call is under way some thread can take a
    step, so the threads never all wait; and when no call is under way
    the mutex is free, on the early return of [pop] as on the others. *)
Theorem locked_stack_excludes_and_goes_on
    (T : Type) (A : Allocator T) (sched : list (action T)) (cf : config T)
    (vs : list T) :
  pool cf = ∅ → m (shared cf) = None → holds (shared cf) vs →
  ∃ cf' tr, exec sched cf = Some (cf', tr)
    ∧ (∀ t1 t2 c1 c2,
         pool cf' !! t1 = Some c1 → pool cf' !! t2 = Some c2 →
         in_cs c1 = true → in_cs c2 = true → t1 = t2)
    ∧ (pool cf' ≠ ∅ → ∃ t, can_run cf' t)
    ∧ (pool cf' = ∅ → m (shared cf') = None).
Proof.
  intros Hp Hm Hh.
  destruct (exec_inv sched cf vs (inv_at_rest T cf vs Hp Hm Hh))
    as (cf' & tr & He & _ & Hinv).
  exists cf', tr. split; [done|]. split; [|split].
  - intros t1 t2 c1 c2. by eapply inv_exclusion.
  - by eapply inv_can_run.
  - by eapply inv_quiet.
Qed.

(** After the first four actions of the two threads, thread 1 owns the
    mutex and thread 0 waits: a thread can take a step. *)
Lemma locked_stack_excludes_and_goes_on_witness :
  ∃ cf', exec (take 4 Examples.two_threads) Examples.locked_one_node = Some (cf', [])
    ∧ pool cf' !! 0 = Some (PushLock 1)
    ∧ pool cf' !! 1 = Some PopTest
    ∧ m (shared cf') = Some 1
    ∧ ∃ t, can_run cf' t.
Proof.
  destruct (locked_stack_excludes_and_goes_on nat _ (take 4 Examples.two_threads)
              Examples.locked_one_node [7] eq_refl eq_refl locked_one_node_holds)
    as (cf' & tr & He & _ & Hrun & _).
  vm_compute in He. injection He as <- <-.
  eexists. split; [by vm_compute|]. split; [by vm_compute|].
  split; [by vm_compute|]. split; [by vm_compute|].
  apply Hrun. intros E. by apply (f_equal (λ p, p !! 0)) in E.
Defined.

End LockedExtras.

(* ================================================================== *)
(** * The lock-free stack under threads *)

Module TreiberThreadsFacts.
Import Memory MemoryFacts ListStack OwnershipFacts.
Import StackTreiber StackTreiberFacts StackLockedFacts TreiberThreads.

Section Facts.
Context {T : Type} `{!Allocator T} `{!Movable T}.
Implicit Types (h : gmap N (Node T)) (p a : addr) (l : list (addr * T)).
Implicit Types (w : world T) (c : pc T) (cf : config T) (vs : list T) (t : nat).
Implicit Types (st : gmap nat (status T)) (tr : list (mark T)) (pub : gset N).

(** *** The linked nodes *)









(** *** The threads *)





(** *** Records *)


Lemma responses_app tr1 tr2 : responses (tr1 ++ tr2) = responses tr1 ++ responses tr2.
Proof. apply omap_app. Qed.

Lemma calls_made_app tr1 tr2 :
  calls_made (tr1 ++ tr2) = calls_made tr1 ++ calls_made tr2.
Proof. apply omap_app. Qed.


(** *** The invariant *)









(** *** Records and their linearizations *)









(** *** Counting calls, effects and returns *)














End Facts.
End TreiberThreadsFacts.

(* ================================================================== *)
(** ** [StackTreiber] used by several threads at once *)

Section ConcurrentClaims.
Import Memory MemoryFacts ListStack OwnershipFacts.
Import StackTreiber StackTreiberFacts TreiberThreads TreiberThreadsFacts.




End ConcurrentClaims.
